(** * Polynomial continued fractions: recurrence evaluator, transforms and
    dynamics retry loops of unifying-formulas-for-math-constants.

    Shallow embedding of [unifier/pcf.py], [unifier/utils/recurrence_transforms_utils.py]
    and [pcf_dynamical_parameters.py].  Exact integers are [Z]; rationals are [Q];
    the arbitrary-precision logarithm of [precision] is the exact real logarithm. *)

From Stdlib Require Import ZArith QArith List Lia.
From Stdlib Require Import Reals Lra.
From Stdlib Require Import Sorting.Sorted.
Import ListNotations.

Open Scope Z_scope.

(** ** Results of fallible Python code *)

Inductive pyexc := ValueError | SingularCoboundaryMatrixError.

Inductive result (A : Type) := Ok (x : A) | Raise (e : pyexc).
Arguments Ok {A} x.
Arguments Raise {A} e.

Definition bind {A B} (r : result A) (f : A -> result B) : result B :=
  match r with Ok x => f x | Raise e => Raise e end.

(** ** 2x2 exact integer matrices ([[m00, m01], [m10, m11]]) *)

Record mat := Mat { m00 : Z; m01 : Z; m10 : Z; m11 : Z }.

Definition mmul (x y : mat) : mat :=
  Mat (m00 x * m00 y + m01 x * m10 y) (m00 x * m01 y + m01 x * m11 y)
      (m10 x * m00 y + m11 x * m10 y) (m10 x * m01 y + m11 x * m11 y).

(** ** Recurrence evaluator ([PCF.step]) *)

(** [a_compute] and [b_compute] are integer polynomials in [n]; the evaluator only
    uses their values at integer indices ([int(self.a_compute.subs({n: k}))]). *)

(** The one-step recurrence matrix [[0, b(k)], [1, a(k)]]. *)
Definition rec_mat (ac bc : Z -> Z) (k : Z) : mat := Mat 0 (bc k) 1 (ac k).

(** [eval_from ac bc m k s] multiplies [m] on the right by the recurrence
    matrices at indices [k, k+1, ..., k+s-1]. *)
Fixpoint eval_from (ac bc : Z -> Z) (m : mat) (k : Z) (s : nat) : mat :=
  match s with
  | O => m
  | S s' => eval_from ac bc (mmul m (rec_mat ac bc k)) (k + 1) s'
  end.

(** Modelled from the spec: [LIReC_utils.pcf.PCF.eval] (the module
    [unifier/utils/LIReC_utils/pcf.py] is not in the sources).  The spec: the step
    matrix at [depth] is the product of [depth] recurrence-matrix substitutions,
    k = 1..depth, left-multiplied by the initial conditions; [depth < 1] is an
    invalid argument. *)
Definition lirec_eval (ac bc : Z -> Z) (init : mat) (depth : Z) : result mat :=
  if depth <? 1 then Raise ValueError
  else Ok (eval_from ac bc init 1 (Z.to_nat depth)).

(** [PCF.step(depth, initial_conditions)]: [None] selects the standard initial
    conditions [[1, a_compute(0)], [0, 1]]. *)
Definition step (ac bc : Z -> Z) (depth : Z) (initial_conditions : option mat)
  : result mat :=
  let init := match initial_conditions with
              | None => Mat 1 (ac 0) 0 1
              | Some m => m
              end in
  lirec_eval ac bc init depth.

(** The index shift [n -> n + d] applied to the integer evaluations. *)
Definition shift_fn (f : Z -> Z) (d : Z) : Z -> Z := fun k => f (k + d).

(** ** Precision of a step matrix ([precision]) *)

Open Scope R_scope.

(** Real part of mpmath's [log(x, base)] for a nonzero integer [x], taken as the
    exact real value [ln |x| / ln base] (the log of a negative number has that
    real part).  mpmath rounds it to 53 bits, and so does the subtraction in
    [precision]; the floor of the rounded difference can be one below the exact
    floor when the ratio is an exact power of the base (cross 4, denominator 40:
    0 instead of 1).  The results derived from this model use the two exact
    integer branches of [precision], or inputs where the rounding does not
    reach the floor. *)
Definition mlog_re (x base : Z) : R := ln (Rabs (IZR x)) / ln (IZR base).

Close Scope R_scope.

(** [precision(matrix, base)]. *)
Definition precision (m : mat) (base : Z) : Z :=
  let numerator := m01 m * m10 m - m11 m * m00 m in
  let denominator := m10 m * m11 m in
  if denominator =? 0 then 0
  else if numerator =? 0 then 100
  else Int_part (- (mlog_re numerator base - mlog_re denominator base))%R.

(** ** Limit ([PCF.limit]) *)

(** Outcome of [limit]: the working digit count given to the mpmath context
    ([None] on the exact-rational branch), the value (exact; the rounding of the
    mpmath division to that digit count is not modelled) and the precision. *)
Record limit_out := LimitOut { lim_dps : option Z; lim_value : Q; lim_prec : Z }.

(** [ifac_num], [ifac_den]: numerator and denominator of
    [(inflated_by * (n+1)).subs({n: 0})]. *)
Definition limit (ac bc : Z -> Z) (ifac_num ifac_den : Z) (depth : Z)
    (initial_conditions : option mat) (prec : option Z) (return_sympy_rational : bool)
  : result limit_out :=
  bind (step ac bc depth initial_conditions) (fun step_mat =>
    let prec := match prec with Some p => p | None => precision step_mat 10 end in
    let numerator := m01 step_mat * ifac_den in
    let denominator := m11 step_mat * ifac_num in
    let value := (inject_Z numerator / inject_Z denominator)%Q in
    if return_sympy_rational then Ok (LimitOut None value prec)
    else Ok (LimitOut (Some prec) value prec)).

(** ** Sample PCFs *)

Definition a_odd (k : Z) : Z := 2 * k + 1.
Definition b_sq (k : Z) : Z := k * k.

Definition mat10 : mat := Mat 3958113600 100370793600 3108695040 78831037440.

(** ** Dynamics retry loops ([PCFDynamics.delta], [PCF.compute_dynamics]) *)

(** Value of an irrationality-measure computation: +infinity, a finite value,
    or Python [None] (the "undefined" signal of [PCF.delta]). *)
Inductive dval := DInf | DVal (q : Q) | DNone.

Definition CIDS : Z := 2.

Definition check_positive (depth : Z) : result unit :=
  if depth <? 1 then Raise ValueError else Ok tt.

(** The loop of [PCFDynamics.delta]:
    [while result == inf: if shift > max_shift: break;
       result = pcf.subs({n: n+shift}).delta(depth + CIDS); shift += shift_step].
    [inner s d] is the external [delta] of the PCF shifted by [s] at depth [d]
    (raising or returning).  [fuel] bounds the number of loop tests; [None]
    means the loop has not ended within [fuel] tests. *)
Fixpoint delta_loop (inner : Z -> Z -> result dval) (depth shift_step max_shift : Z)
    (fuel : nat) (shift : Z) (res : dval) : option (result dval) :=
  match fuel with
  | O => None
  | S fuel' =>
      match res with
      | DInf =>
          if max_shift <? shift then Some (Ok DInf)
          else match inner shift (depth + CIDS) with
               | Raise e => Some (Raise e)
               | Ok r => delta_loop inner depth shift_step max_shift fuel'
                           (shift + shift_step) r
               end
      | r => Some (Ok r)
      end
  end.

Definition delta_dyn (inner : Z -> Z -> result dval) (depth shift_step max_shift : Z)
    (fuel : nat) : option (result dval) :=
  match check_positive depth with
  | Raise e => Some (Raise e)
  | Ok _ => delta_loop inner depth shift_step max_shift fuel 0 DInf
  end.

(** [delta] does not return: no amount of fuel lets its loop finish. *)
Definition delta_diverges (inner : Z -> Z -> result dval)
    (depth shift_step max_shift : Z) : Prop :=
  forall fuel, delta_dyn inner depth shift_step max_shift fuel = None.

(** The shifts tried by [delta]: [s, s + step, ..., s + (k-1) step]. *)
Fixpoint shifts_from (s step : Z) (k : nat) : list Z :=
  match k with O => [] | S k' => s :: shifts_from (s + step) step k' end.

(** Number of shifts [0, step, 2 step, ...] not exceeding [max_shift]. *)
Definition shift_count (step max_shift : Z) : nat :=
  if max_shift <? 0 then O else S (Z.to_nat (max_shift / step)).

(** The first result of the list of tries that is not +infinity, an exception
    being propagated. *)
Fixpoint first_non_inf (inner : Z -> Z -> result dval) (d : Z) (l : list Z)
  : result dval :=
  match l with
  | [] => Ok DInf
  | s :: l' =>
      match inner s d with
      | Raise e => Raise e
      | Ok DInf => first_non_inf inner d l'
      | Ok r => Ok r
      end
  end.

(** First loop of [PCF.compute_dynamics]:
    [while (delta == inf or not success) and i < max_iters:
       try: delta = round(float(self.delta(depth)), 5); success = delta != inf
       except: success = False
       depth += depth_shift; i += 1].
    [float(None)] raises, so [DNone] behaves like an exception; the rounding to
    5 decimals is not modelled.  Returns the final delta and iteration count. *)
Fixpoint cd_delta_loop (inner : Z -> result dval) (max_iters depth_shift : Z)
    (fuel : nat) (depth i : Z) (delta : dval) (success : bool)
  : option (dval * Z) :=
  match fuel with
  | O => None
  | S fuel' =>
      if (match delta with DInf => true | _ => false end || negb success)
         && (i <? max_iters)
      then
        let '(delta', success') :=
          match inner depth with
          | Ok DInf => (DInf, success)
          | Ok (DVal q) => (DVal q, true)
          | Ok DNone | Raise _ => (delta, false)
          end in
        cd_delta_loop inner max_iters depth_shift fuel' (depth + depth_shift) (i + 1)
          delta' success'
      else Some (delta, i)
  end.

(** Second loop: [while not success and i < max_iters:
       try: convrate = round(float(self.convergence_rate(depth)), 5); success = True
       except: pass
       depth += depth_shift; i += 1]. *)
Fixpoint cd_conv_loop (inner : Z -> result Q) (max_iters depth_shift : Z)
    (fuel : nat) (depth i : Z) (convrate : Q) (success : bool) : option (Q * Z) :=
  match fuel with
  | O => None
  | S fuel' =>
      if negb success && (i <? max_iters) then
        match inner depth with
        | Ok c => cd_conv_loop inner max_iters depth_shift fuel' (depth + depth_shift)
                    (i + 1) c true
        | Raise _ => cd_conv_loop inner max_iters depth_shift fuel' (depth + depth_shift)
                       (i + 1) convrate false
        end
      else Some (convrate, i)
  end.

(** [PCF.compute_dynamics(depth, max_iters, depth_shift)]: the two loops, each
    reporting its iteration count. *)
Definition compute_dynamics (delta_inner : Z -> result dval) (conv_inner : Z -> result Q)
    (depth max_iters depth_shift : Z) (fuel : nat) : option ((dval * Z) * (Q * Z)) :=
  match cd_delta_loop delta_inner max_iters depth_shift fuel depth 0 DInf false with
  | None => None
  | Some dl =>
      match cd_conv_loop conv_inner max_iters depth_shift fuel depth 0 0%Q false with
      | None => None
      | Some cl => Some (dl, cl)
      end
  end.

(** ** Convergent indices used by [errors], [q_reds] and [delta] *)

(** [sorted(list(set(depths)))]. *)
Fixpoint ins_uniq (x : Z) (l : list Z) : list Z :=
  match l with
  | [] => [x]
  | y :: l' => if x <? y then x :: l else if x =? y then l else y :: ins_uniq x l'
  end.

Definition sorted_set (l : list Z) : list Z := fold_right ins_uniq [] l.

(** [list(range(a, b))]. *)
Definition zrange (a b : Z) : list Z :=
  map (fun i => a + Z.of_nat i) (seq 0 (Z.to_nat (b - a))).

(** [PCFDynamics.errors] up to its call of [pcf.limit]: for each depth (sorted,
    deduplicated) the iteration index handed to [pcf.limit]; [depths[0]] of an
    empty list fails (an [IndexError] in Python, [ValueError] here).  The call
    of [pcf.limit] and [as_float] (which can raise on a zero denominator) are
    not modelled. *)
Definition errors_iterations (depths : list Z) : result (list (Z * Z)) :=
  match sorted_set depths with
  | [] => Raise ValueError
  | (d0 :: _) as ds =>
      bind (check_positive d0) (fun _ => Ok (map (fun d => (d, d + CIDS)) ds))
  end.

(** [PCFDynamics.q_reds]: [limits = pcf.limit(range(CIDS, depths[-1] + CIDS))] and
    depth [d] reads [limits[depth_to_ind[d]]] with [depth_to_ind[d] = d - 1];
    the iteration index of that entry is reported ([None]: missing key). *)
Definition q_reds_iterations (depths : list Z) : result (list (Z * option Z)) :=
  let ds := sorted_set depths in
  let lastd := last ds 0 in
  bind (check_positive lastd) (fun _ =>
    let iters := zrange CIDS (lastd + CIDS) in
    Ok (map (fun d => (d, if d <? 1 then None
                          else nth_error iters (Z.to_nat (d - 1)))) ds)).

(** [PCFDynamics.delta]: the depth handed to the inner [delta] on every try. *)
Definition delta_iteration (depth : Z) : result Z :=
  bind (check_positive depth) (fun _ => Ok (depth + CIDS)).

(** ** Folded limit transport ([get_folded_pcf_limit]) *)

Record qmat := QMat { q00 : Q; q01 : Q; q10 : Q; q11 : Q }.

Definition qmmul (x y : qmat) : qmat :=
  QMat (q00 x * q00 y + q01 x * q10 y) (q00 x * q01 y + q01 x * q11 y)
       (q10 x * q00 y + q11 x * q10 y) (q10 x * q01 y + q11 x * q11 y).

Definition qdet (x : qmat) : Q := q00 x * q11 x - q01 x * q10 x.

(** Inverse by the adjugate (sympy's [inv] of a nonsingular matrix). *)
Definition qinv (x : qmat) : qmat :=
  let d := qdet x in
  QMat (q11 x / d) (- q01 x / d) (- q10 x / d) (q00 x / d).

Definition qid : qmat := QMat 1 0 0 1.

(** Value of a Moebius map: finite, or sympy's complex infinity [zoo]. *)
Inductive mob := MobFin (q : Q) | MobZoo.

(** [mobius(matrix, z) = (a z + b) / (c z + d)]. *)
Definition mobius (m : qmat) (z : Q) : mob :=
  let den := (q10 m * z + q11 m)%Q in
  if Qeq_bool den 0 then MobZoo else MobFin ((q00 m * z + q01 m) / den)%Q.

(** [pcf.M()] at index [k]: [[0, b(k)], [1, a(k)]]. *)
Definition qrec_mat (a b : Z -> Q) (k : Z) : qmat := QMat 0 (b k) 1 (a k).

(** [fold_matrix(M, factor)] evaluated at [n = x]: the product over
    [i = 0..factor-1] of [M(factor*x - (factor - 1 - i))]. *)
Definition fold_at (a b : Z -> Q) (factor : nat) (x : Z) : qmat :=
  fold_left (fun acc i => qmmul acc (qrec_mat a b
                 (Z.of_nat factor * x - (Z.of_nat factor - 1 - Z.of_nat i))))
            (seq 0 factor) qid.

(** [as_pcf_cob(matrix)] at [n = x]:
    [[1, a], [0, c]] * [[eta(x-1), 0], [0, 1]] * [[1, 0], [0, c(x-1)]], where
    [a], [c] are the (0,0) and (1,0) entries of [matrix]. *)
Definition as_pcf_cob_at (fm : Z -> qmat) (eta : Z -> Q) (x : Z) : qmat :=
  qmmul (qmmul (QMat 1 (q00 (fm x)) 0 (q10 (fm x))) (QMat (eta (x - 1)) 0 0 1))
        (QMat 1 0 0 (q10 (fm (x - 1)))).

(** [PCF.A()]: [[1, a(0)], [0, 1]]. *)
Definition A_mat (a0 : Q) : qmat := QMat 1 a0 0 1.

(** [get_folded_pcf_limit(pcf, factor, limit)].  The polynomial-toolkit results
    of the [as_pcf] normalisation enter as arguments: [eta] is
    [as_pcf_eta(foldedmat)] as a function of [n] and [folded_a0] is [a(0)] of
    [as_pcf(foldedmat)]. *)
Definition get_folded_pcf_limit (a b : Z -> Q) (factor : nat) (eta : Z -> Q)
    (folded_a0 : Q) (limit : Q) : result mob :=
  let U1 := as_pcf_cob_at (fold_at a b factor) eta 1 in
  if Qeq_bool (qdet U1) 0 then Raise SingularCoboundaryMatrixError
  else Ok (mobius (qmmul (qmmul (A_mat folded_a0) (qinv U1)) (qinv (A_mat (a 0)))) limit).

(** ** Polynomial toolkit (sympy's [cancel], [gcd], [lcm], [solve] on polynomials
    in one variable [n]) *)

(** Integer polynomials, coefficients listed from degree 0 upwards. *)
Definition poly := list Z.

Fixpoint peval (p : poly) (x : Z) : Z :=
  match p with [] => 0 | c :: p' => c + x * peval p' x end.

Fixpoint padd (p q : poly) : poly :=
  match p, q with
  | [], _ => q
  | _, [] => p
  | c :: p', d :: q' => (c + d) :: padd p' q'
  end.

Definition pscale (k : Z) (p : poly) : poly := map (Z.mul k) p.

Fixpoint pmul (p q : poly) : poly :=
  match p with [] => [] | c :: p' => padd (pscale c q) (0 :: pmul p' q) end.

(** Dropping the zero coefficients of highest degree. *)
Fixpoint pnorm (p : poly) : poly :=
  match p with
  | [] => []
  | c :: p' => match pnorm p' with
               | [] => if c =? 0 then [] else [c]
               | r => c :: r
               end
  end.

Fixpoint zlist_eqb (l1 l2 : list Z) : bool :=
  match l1, l2 with
  | [], [] => true
  | x :: l1', y :: l2' => (x =? y) && zlist_eqb l1' l2'
  | _, _ => false
  end.

Definition peqb (p q : poly) : bool := zlist_eqb (pnorm p) (pnorm q).

Definition pnonzero (p : poly) : bool := negb (zlist_eqb (pnorm p) []).

(** [p.subs({n: n + k})]. *)
Definition pshift (p : poly) (k : Z) : poly :=
  fold_right (fun c acc => padd [c] (pmul [k; 1] acc)) [] p.

(** Rational-coefficient polynomials, for the Euclidean algorithm. *)
Definition qpoly := list Q.

Open Scope Q_scope.

Fixpoint qnorm (p : qpoly) : qpoly :=
  match p with
  | [] => []
  | c :: p' => match qnorm p' with
               | [] => if Qeq_bool c 0 then [] else [Qred c]
               | r => Qred c :: r
               end
  end.

Fixpoint qadd (p q : qpoly) : qpoly :=
  match p, q with
  | [], _ => q
  | _, [] => p
  | c :: p', d :: q' => Qred (c + d) :: qadd p' q'
  end.

Definition qscale (k : Q) (p : qpoly) : qpoly := map (fun c => Qred (k * c)) p.

Fixpoint qmul (p q : qpoly) : qpoly :=
  match p with [] => [] | c :: p' => qadd (qscale c q) (0 :: qmul p' q) end.

Definition qlc (p : qpoly) : Q := last (qnorm p) 0.

Definition toQ (p : poly) : qpoly := map inject_Z p.

(** Long division; [fuel] bounds the number of quotient terms. *)
Fixpoint qdivmod (fuel : nat) (p d : qpoly) : qpoly * qpoly :=
  match fuel with
  | O => ([], qnorm p)
  | S f =>
      let p := qnorm p in
      let d := qnorm d in
      if (length p <? length d)%nat then ([], p)
      else
        let c := Qred (qlc p / qlc d) in
        let t := repeat 0 (length p - length d) ++ [c] in
        let (q, r) := qdivmod f (qadd p (qscale (-1) (qmul t d))) d in
        (qadd t q, r)
  end.

Definition qdiv (p d : qpoly) : qpoly := fst (qdivmod (S (length p)) p d).
Definition qmod (p d : qpoly) : qpoly := snd (qdivmod (S (length p)) p d).

Definition qmonic (p : qpoly) : qpoly := qnorm (qscale (/ qlc p) p).

(** Monic greatest common divisor over Q (Euclid). *)
Fixpoint qgcd_fuel (fuel : nat) (a b : qpoly) : qpoly :=
  match fuel with
  | O => qmonic a
  | S f => if (length (qnorm b) =? 0)%nat then qmonic a
           else qgcd_fuel f b (qmod a b)
  end.

Definition qgcd (a b : qpoly) : qpoly := qgcd_fuel (S (length a + length b)) a b.

Open Scope Z_scope.

(** Least common multiple of the denominators of the coefficients. *)
Definition qden_lcm (p : qpoly) : Z :=
  fold_right (fun c acc => Z.lcm (Zpos (Qden (Qred c))) acc) 1 p.

(** [k * p] for a rational polynomial that [k] makes integral. *)
Definition qtoZ (k : Z) (p : qpoly) : poly :=
  map (fun c => Qnum (Qred (inject_Z k * c))) p.

Definition zcontent (p : poly) : Z := fold_right Z.gcd 0 p.

Definition plc (p : poly) : Z := last (pnorm p) 0.

(** The primitive part with positive leading coefficient. *)
Definition pprim (p : poly) : poly :=
  let c := zcontent p in
  let s := if plc p <? 0 then -1 else 1 in
  pnorm (map (fun a => s * (a / c)) p).

(** sympy's [gcd] over the integers: gcd of the contents times the primitive
    monic gcd made integral and primitive. *)
Definition pgcd (p q : poly) : poly :=
  let g := qgcd (toQ p) (toQ q) in
  pscale (Z.gcd (zcontent p) (zcontent q)) (pprim (qtoZ (qden_lcm g) g)).

(** sympy's [lcm] over the integers: lcm of the contents times
    [prim(p) * prim(q) / gcd(prim(p), prim(q))], with positive leading coefficient. *)
Definition plcm (p q : poly) : poly :=
  if negb (pnonzero p) || negb (pnonzero q) then []
  else
    let pp := pprim p in
    let pq := pprim q in
    let g := pgcd pp pq in
    let h := qtoZ 1 (qdiv (toQ (pmul pp pq)) (toQ g)) in
    pscale (Z.lcm (zcontent p) (zcontent q)) (pprim h).

(** Rational functions of [n], as a numerator and a denominator. *)
Record rf := RF { rnum : poly; rden : poly }.

Definition rf_one : rf := RF [1] [1].
Definition rf_of_poly (p : poly) : rf := RF p [1].
Definition rf_mul (r s : rf) : rf := RF (pmul (rnum r) (rnum s)) (pmul (rden r) (rden s)).
Definition rf_inv (r : rf) : rf := RF (rden r) (rnum r).
Definition rf_shift (r : rf) (k : Z) : rf := RF (pshift (rnum r) k) (pshift (rden r) k).

(** [sp.simplify(sp.cancel(p / q))], with a certificate: the result [(p', q')]
    comes with an integer polynomial [G] and a nonzero integer [K] such that
    [G * p' = K * p] and [G * q' = K * q].  The quotient by the gcd over Q is
    made integral, jointly primitive, with a positive leading coefficient in the
    denominator (sympy's normal form); the certificate is checked, and the
    input is kept as it is when the check fails. *)
Definition cancel_cert (p q : poly) : poly * poly * poly * Z :=
  let fallback := (p, q, [1], 1) in
  if negb (pnonzero q) then fallback
  else if negb (pnonzero p) then ([], [1], q, 1)
  else
    let g := qgcd (toQ p) (toQ q) in
    let p1 := qdiv (toQ p) g in
    let q1 := qdiv (toQ q) g in
    let D := Z.lcm (qden_lcm p1) (qden_lcm q1) in
    let P2 := qtoZ D p1 in
    let Q2 := qtoZ D q1 in
    let m := Z.gcd (zcontent P2) (zcontent Q2) in
    let s := if plc Q2 <? 0 then -1 else 1 in
    let p' := pnorm (map (fun a => s * (a / m)) P2) in
    let q' := pnorm (map (fun a => s * (a / m)) Q2) in
    let Dg := qden_lcm g in
    let G := qtoZ (m * Dg) g in
    let K := Dg * s * D in
    if negb (K =? 0) && peqb (pmul G p') (pscale K p) && peqb (pmul G q') (pscale K q)
    then (p', q', G, K)
    else fallback.

Definition cancel (r : rf) : rf :=
  let '(p', q', _, _) := cancel_cert (rnum r) (rden r) in RF p' q'.

(** Sum of the absolute values of the coefficients. *)
Definition pabs_sum (p : poly) : Z := fold_right (fun c acc => Z.abs c + acc) 0 p.

(** Integer roots of a nonzero polynomial ([sp.solve] filtered to integers): an
    integer root divides the lowest nonzero coefficient, so it lies within the
    sum of the absolute values of the coefficients.  [sp.solve(0, n)] is empty. *)
Definition int_roots (p : poly) : list Z :=
  if negb (pnonzero p) then []
  else
    let M := pabs_sum p in
    filter (fun r => peval p r =? 0) (zrange (- M) (M + 1)).

(** Python's [max] of a list; [None] for the empty list. *)
Definition zmax_list (l : list Z) : option Z :=
  match l with [] => None | x :: l' => Some (fold_right Z.max x l') end.

(** ** PCF representation ([PCF.__init__], [subs], [inflate], [deflate_all]) *)

Record pcf := PCFR {
  pa : rf;                              (* self.a *)
  pb : rf;                              (* self.b *)
  inflated_by : rf;
  inflate_to_integer_polynomials : rf;
  a_compute : rf;
  b_compute : rf }.

(** [PCF(a, b, inflated_by=...)] with the default variable [n]:
    [a], [b] are cancelled; [inflate_to_integer_polynomials] is the lcm of their
    denominators; [inflated_by] is the seed (default 1) times that lcm;
    [a_compute = cancel(a * L)], [b_compute = cancel(b * L * L(n-1))]. *)
Definition mk_pcf (a b : rf) (seed : option rf) : pcf :=
  let a' := cancel a in
  let b' := cancel b in
  let L := cancel (rf_of_poly (plcm (rden a') (rden b'))) in
  let ib := match seed with None => rf_one | Some r => r end in
  PCFR a' b' (rf_mul ib L) L
       (cancel (rf_mul a L)) (cancel (rf_mul (rf_mul b L) (rf_shift L (-1)))).

(** [pcf.subs({n: n + k})]: a new PCF, [inflated_by] not kept. *)
Definition pcf_subs_shift (p : pcf) (k : Z) : pcf :=
  mk_pcf (rf_shift (pa p) k) (rf_shift (pb p) k) None.

(** [PCF.inflate(c)]. *)
Definition inflate (p : pcf) (c : rf) : pcf :=
  mk_pcf (rf_mul (pa p) c) (rf_mul (rf_mul (pb p) c) (rf_shift c (-1)))
         (Some (cancel (rf_mul (inflated_by p) c))).

(** Modelled from the spec: [pcf_utils.content] (the module is not in the
    sources).  The spec: the polynomial content, i.e. the GCD over the index
    ring, of the numerator polynomials of [a] and [b]. *)
Definition content (p q : poly) : poly := pgcd p q.

(** [PCF.deflate_all()]: [self.inflate(1 / content(a_num, b_num, [n]))]. *)
Definition deflate_all (p : pcf) : pcf :=
  inflate p (rf_inv (rf_of_poly (content (rnum (pa p)) (rnum (pb p))))).

(** ** Viability shift ([get_zeros], [get_shift], [shift_to_viable]) *)

Definition get_shift (p : pcf) : Z :=
  let shifta_den := match zmax_list (int_roots (rden (pa p))) with
                    | None => 0 | Some m => m + 1 end in
  let shiftb_den := match zmax_list (int_roots (rden (pb p))) with
                    | None => 0 | Some m => m end in
  let shiftb_num := match zmax_list (int_roots (rnum (pb p))) with
                    | None => 0 | Some m => m end in
  Z.max shifta_den (Z.max shiftb_den shiftb_num).

Definition shift_to_viable (p : pcf) : pcf * Z :=
  let shift := get_shift p in (pcf_subs_shift p shift, shift).

(** The PCF [p] shifted by [s] never divides by zero ([a]'s denominator nonzero
    from index 0, [b]'s from index 1) and never truncates ([b]'s numerator
    nonzero from index 1). *)
Definition viable_at (p : pcf) (s : Z) : Prop :=
  forall x, (0 <= x -> peval (rden (pa p)) (x + s) <> 0) /\
            (1 <= x -> peval (rden (pb p)) (x + s) <> 0 /\
                       peval (rnum (pb p)) (x + s) <> 0).

(** Equality of rational functions: equal values wherever both are defined. *)
Definition rf_equiv (r s : rf) : Prop :=
  forall x, peval (rden r) x <> 0 -> peval (rden s) x <> 0 ->
            peval (rnum r) x * peval (rden s) x = peval (rnum s) x * peval (rden r) x.

(** Sample PCFs: [PCF(1, 1)], [PCF(1, n)], [PCF(1/(n+2), 1)], and c = 1/n. *)
Definition pcf_one_one : pcf := mk_pcf rf_one rf_one None.
Definition pcf_one_n : pcf := mk_pcf rf_one (rf_of_poly [0; 1]) None.
Definition pcf_inv_n2 : pcf := mk_pcf (RF [1] [2; 1]) rf_one None.
Definition c_inv_n : rf := RF [1] [0; 1].

(** [PCF(1/(n+5), (n+3)/(n+7))]: viable as it stands, all roots negative. *)
Definition pcf_viable_neg : pcf := mk_pcf (RF [1] [5; 1]) (RF [3; 1] [7; 1]) None.

(** ** Matrix algebra of the step matrices ([PCF.step], [precision]) *)

Definition mid : mat := Mat 1 0 0 1.

Definition mdet (m : mat) : Z := m00 m * m11 m - m01 m * m10 m.

(** Product of the determinants [-b(k)] of the recurrence matrices at
    indices [k, ..., k+s-1]. *)
Fixpoint bprod (bc : Z -> Z) (k : Z) (s : nat) : Z :=
  match s with O => 1 | S s' => - bc k * bprod bc (k + 1) s' end.

(** The nested fraction [b(k) / (a(k) + b(k+1) / (a(k+1) + ... + b(k+s-1) / a(k+s-1)))]
    of the [step] docstring, evaluated from the inside out; [None] when one of
    its denominators is 0. *)
Fixpoint cf_tail (ac bc : Z -> Z) (k : Z) (s : nat) : option Q :=
  match s with
  | O => Some 0%Q
  | S s' =>
      match cf_tail ac bc (k + 1) s' with
      | None => None
      | Some t => let d := (inject_Z (ac k) + t)%Q in
                  if Qeq_bool d 0 then None else Some (inject_Z (bc k) / d)%Q
      end
  end.

(** ** Irrationality measure of one convergent ([PCF.delta]) *)

(** Outcome of [PCF.delta]: Python [None] ([reduced_q == 1]), [+inf] (the
    logarithm of a zero error), a real value, or a case outside the embedding
    ([gcd(p, q) = 0], or [reduced_q <= 0], where mpmath takes a complex
    logarithm). *)
Inductive delta_out := DeltaUndefined | DeltaInf | DeltaVal (r : R) | DeltaUnmodelled.

(** [PCF.delta] from [p = step_mat[0][1]], [q = step_mat[1][1]] and the
    limit; mpmath's arithmetic at [prec] digits is exact real arithmetic here. *)
Definition pcf_delta (p q : Z) (limit : R) : delta_out :=
  let g := Z.gcd p q in
  if g =? 0 then DeltaUnmodelled
  else
    let reduced_q := q / g in
    if reduced_q =? 1 then DeltaUndefined
    else if reduced_q <? 1 then DeltaUnmodelled
    else
      let err := Rabs (limit - IZR p / IZR q) in
      if Req_EM_T err 0 then DeltaInf
      else DeltaVal (- (1 + ln err / ln (IZR reduced_q)))%R.

(** [PCF.delta(depth, limit)] called with a limit: [step_mat = self.step(depth)]
    (standard initial conditions), then [pcf_delta] on [p = step_mat[0][1]],
    [q = step_mat[1][1]].  With a limit given no [self.limit(2 * depth)] is
    computed; the rounding of the given limit to [precision(step_mat)] digits
    is not modelled (it changes only the real value returned). *)
Definition delta_with_limit (ac bc : Z -> Z) (depth : Z) (limit : R) : result delta_out :=
  bind (step ac bc depth None) (fun step_mat =>
    Ok (pcf_delta (m01 step_mat) (m11 step_mat) limit)).

(** ** Fit depths ([PCFDynamics.depths_for_fit], [convergence_rate],
    [q_reduced_growth_rate]) *)

(** [sorted(list(set([6, depth // 8, depth // 4, depth // 2, depth])))]. *)
Definition depths_for_fit (depth : Z) : list Z :=
  sorted_set [6; depth / 8; depth / 4; depth / 2; depth].

(** [PCFDynamics.convergence_rate(depth)] up to the curve fit: the check on
    [depth] and the iterations [errors(depths_for_fit(depth))] reads. *)
Definition convergence_rate_iterations (depth : Z) : result (list (Z * Z)) :=
  bind (check_positive depth) (fun _ => errors_iterations (depths_for_fit depth)).

(** [PCFDynamics.q_reduced_growth_rate(depth)] up to the curve fit:
    [q_reds(depths_for_fit(depth))]. *)
Definition q_reduced_growth_rate_iterations (depth : Z) : result (list (Z * option Z)) :=
  bind (check_positive depth) (fun _ => q_reds_iterations (depths_for_fit depth)).

(** ** Outcome of the retry loops of [PCF.compute_dynamics] *)

(** The first finite delta among the tries, with its position. *)
Fixpoint first_finite (l : list (result dval)) : option (Q * nat) :=
  match l with
  | [] => None
  | Ok (DVal q) :: _ => Some (q, O)
  | _ :: l' => option_map (fun '(q, j) => (q, S j)) (first_finite l')
  end.

(** The first convergence rate that did not raise, with its position. *)
Fixpoint first_ok (l : list (result Q)) : option (Q * nat) :=
  match l with
  | [] => None
  | Ok c :: _ => Some (c, O)
  | Raise _ :: l' => option_map (fun '(c, j) => (c, S j)) (first_ok l')
  end.

(** ** Rational matrices: equality, folding and the [as_pcf] coboundary *)

Definition qmat_eq (x y : qmat) : Prop :=
  (q00 x == q00 y /\ q01 x == q01 y /\ q10 x == q10 y /\ q11 x == q11 y)%Q.

Definition qmscale (k : Q) (m : qmat) : qmat :=
  QMat (k * q00 m) (k * q01 m) (k * q10 m) (k * q11 m).

Definition mob_eq (u v : mob) : Prop :=
  match u, v with
  | MobFin x, MobFin y => (x == y)%Q
  | MobZoo, MobZoo => True
  | _, _ => False
  end.

(** [m] times [pcf.M()] at indices [k, ..., k+s-1]. *)
Fixpoint qeval_from (a b : Z -> Q) (m : qmat) (k : Z) (s : nat) : qmat :=
  match s with
  | O => m
  | S s' => qeval_from a b (qmmul m (qrec_mat a b k)) (k + 1) s'
  end.

(** [m] times the folded matrix [fold_matrix(pcf.M(), factor)] at
    [n = x, ..., x+N-1]. *)
Fixpoint fold_prod (a b : Z -> Q) (factor : nat) (m : qmat) (x : Z) (N : nat) : qmat :=
  match N with
  | O => m
  | S N' => fold_prod a b factor (qmmul m (fold_at a b factor x)) (x + 1) N'
  end.

(** [as_pcf(matrix)] at [n = x]: the matrix [[0, b'(x)], [1, a'(x)]] of
    [PCF(c a(n+1) + d c(n+1), (b c - a d) c(n-1) c(n+1))] ([a, b, c, d] the
    cells of [matrix] in row order), inflated by [1/eta] as [PCF.inflate]
    does ([a' / eta(n)], [b' / (eta(n) eta(n-1))]). *)
Definition as_pcf_at (fm : Z -> qmat) (eta : Z -> Q) (x : Z) : qmat :=
  let a := fun k => q00 (fm k) in
  let b := fun k => q01 (fm k) in
  let c := fun k => q10 (fm k) in
  let d := fun k => q11 (fm k) in
  let a' := (c x * a (x + 1)%Z + d x * c (x + 1)%Z)%Q in
  let b' := ((b x * c x - a x * d x) * c (x - 1)%Z * c (x + 1)%Z)%Q in
  QMat 0 (b' / (eta x * eta (x - 1)%Z)) 1 (a' / eta x).

(** A sample inner delta for [compute_dynamics]: it raises at depth 2000 and
    is 1 from 2100 on. *)
Definition cd_delta_ex (d : Z) : result dval :=
  if d =? 2000 then Raise ValueError else Ok (DVal 1).

(* ================================================================== *)
(** * Theorems *)

Lemma eval_from_app (ac bc : Z -> Z) (s1 s2 : nat) :
  forall m k, eval_from ac bc m k (s1 + s2)
              = eval_from ac bc (eval_from ac bc m k s1) (k + Z.of_nat s1) s2.
Proof.
  induction s1 as [|s1 IH]; intros m k; simpl.
  - now rewrite Z.add_0_r.
  - rewrite IH. f_equal. lia.
Qed.

Lemma eval_from_shift (ac bc : Z -> Z) (d : Z) (s : nat) :
  forall m k, eval_from (shift_fn ac d) (shift_fn bc d) m k s
              = eval_from ac bc m (k + d) s.
Proof.
  induction s as [|s IH]; intros m k; simpl; [reflexivity|].
  rewrite IH. unfold rec_mat, shift_fn. f_equal. lia.
Qed.

(** C1 (amended): resuming from the checkpoint [Step(d0)] reproduces [Step(d1)]
    exactly when the resumed run evaluates the PCF with its index shifted by
    [d0] (n -> n + d0) for [d1 - d0] further steps. *)
Theorem step_resume_shifted (ac bc : Z -> Z) (d0 d1 : Z) :
  1 <= d0 -> d0 < d1 ->
  step ac bc d1 None
  = bind (step ac bc d0 None)
      (fun chk => step (shift_fn ac d0) (shift_fn bc d0) (d1 - d0) (Some chk)).
Proof.
  intros H0 H1. unfold step, lirec_eval, bind.
  destruct (Z.ltb_spec d1 1); [lia|].
  destruct (Z.ltb_spec d0 1); [lia|].
  destruct (Z.ltb_spec (d1 - d0) 1); [lia|].
  f_equal.
  replace (Z.to_nat d1) with (Z.to_nat d0 + Z.to_nat (d1 - d0))%nat by lia.
  rewrite eval_from_app, eval_from_shift. f_equal. lia.
Qed.

(** Witness for [step_resume_shifted]: a(n) = 2n+1, b(n) = n^2, from depth 3 to 10. *)
Lemma step_resume_shifted_witness :
  (1 <= 3 /\ 3 < 10) /\
  step a_odd b_sq 10 None
  = bind (step a_odd b_sq 3 None)
      (fun chk => step (shift_fn a_odd 3) (shift_fn b_sq 3) (10 - 3) (Some chk)).
Proof.
  split; [lia|]. apply (step_resume_shifted a_odd b_sq 3 10); lia.
Defined.

(** C1 (counterexample): for a(n) = 2n+1, b(n) = n^2, [Step(9)] computed from the
    depth-1 checkpoint without shifting the index is not [Step(10)]; the direct
    [Step(10)] is the matrix of the test. *)
Lemma step_resume_unshifted_differs :
  step a_odd b_sq 10 None = Ok mat10 /\
  step a_odd b_sq 1 None = Ok (Mat 1 4 1 3) /\
  step a_odd b_sq 9 (Some (Mat 1 4 1 3)) <> Ok mat10.
Proof.
  split; [vm_compute; reflexivity|].
  split; [vm_compute; reflexivity|].
  vm_compute. discriminate.
Qed.

Lemma Int_part_IZR_eq (z : Z) : Int_part (IZR z) = z.
Proof.
  unfold Int_part.
  rewrite <- (tech_up (IZR z) (z + 1)); [ring | |]; rewrite plus_IZR; lra.
Qed.

(** C10: [precision] is not clamped below zero.  The PCF a = 1, b = 10^6 reaches
    [[1, 1000001], [1, 1]] at depth 1, whose precision is -6 digits; [limit]
    without a precision argument hands that negative value to the mpmath
    context as its digit count and returns it as the precision. *)
Theorem precision_negative_unclamped :
  step (fun _ => 1) (fun _ => 1000000) 1 None = Ok (Mat 1 1000001 1 1) /\
  precision (Mat 1 1000001 1 1) 10 = -6 /\
  precision (Mat 1 1000001 1 1) 10 < 0 /\
  exists v, limit (fun _ => 1) (fun _ => 1000000) 1 1 1 None None false
            = Ok (LimitOut (Some (-6)) v (-6)).
Proof.
  assert (P : precision (Mat 1 1000001 1 1) 10 = -6).
  { unfold precision; simpl.
    unfold mlog_re.
    rewrite Rabs_R1, ln_1, Rabs_pos_eq by lra.
    replace (IZR 1000000) with (10 ^ 6)%R by ring.
    rewrite ln_pow by lra.
    assert (L : (0 < ln 10)%R).
    { rewrite <- ln_1. apply ln_increasing; lra. }
    replace (- (INR 6 * ln 10 / ln 10 - 0 / ln 10))%R with (IZR (-6)).
    - apply Int_part_IZR_eq.
    - simpl. field. lra. }
  split; [vm_compute; reflexivity|].
  split; [exact P|].
  split; [rewrite P; lia|].
  eexists. unfold limit.
  replace (step (fun _ : Z => 1) (fun _ : Z => 1000000) 1 None)
    with (Ok (A := mat) (Mat 1 1000001 1 1)) by (vm_compute; reflexivity).
  cbn [bind]. rewrite P. reflexivity.
Qed.

(** The shift loop of [delta], started at shift [s] with [n] admissible shifts
    left, makes exactly the tries [s, s + step, ...] and returns the first one
    that is not +infinity. *)
Lemma delta_loop_tries (inner : Z -> Z -> result dval) (depth step max_shift : Z) :
  forall (n : nat) (fuel : nat) (s : Z),
    (n < fuel)%nat ->
    max_shift < s + Z.of_nat n * step ->
    (forall i : nat, (i < n)%nat -> s + Z.of_nat i * step <= max_shift) ->
    delta_loop inner depth step max_shift fuel s DInf
    = Some (first_non_inf inner (depth + CIDS) (shifts_from s step n)).
Proof.
  induction n as [|n IH]; intros fuel s Hf Hlt Hle;
    (destruct fuel as [|fuel]; [lia|]); simpl.
  - replace (max_shift <? s) with true by (symmetry; apply Z.ltb_lt; lia).
    reflexivity.
  - assert (H0 := Hle O ltac:(lia)).
    replace (max_shift <? s) with false by (symmetry; apply Z.ltb_ge; lia).
    destruct (inner s (depth + CIDS)) as [[|q|]|e]; try reflexivity.
    + apply IH; [lia| lia |].
      intros i Hi. specialize (Hle (S i) ltac:(lia)). lia.
    + destruct fuel; [lia|reflexivity].
    + destruct fuel; [lia|reflexivity].
Qed.

Lemma shift_count_bounds (step max_shift : Z) :
  1 <= step ->
  max_shift < Z.of_nat (shift_count step max_shift) * step /\
  (forall i : nat, (i < shift_count step max_shift)%nat ->
                   Z.of_nat i * step <= max_shift).
Proof.
  intros Hs. unfold shift_count.
  destruct (Z.ltb_spec max_shift 0).
  - split; [simpl; lia| intros i Hi; lia].
  - assert (G := Z.mul_succ_div_gt max_shift step ltac:(lia)).
    assert (L := Z.mul_div_le max_shift step ltac:(lia)).
    assert (P : 0 <= max_shift / step) by (apply Z.div_pos; lia).
    split.
    + rewrite Nat2Z.inj_succ, Z2Nat.id by lia. lia.
    + intros i Hi.
      assert (Z.of_nat i <= max_shift / step) by lia.
      nia.
Qed.

(** C5 (amended): for depth >= 1 and shiftStep >= 1, [delta] tries the PCF with
    its index shifted by 0, shiftStep, 2 shiftStep, ... (n -> n + shift) while
    the shift does not exceed maxShift, always at the same depth [depth + CIDS];
    it returns the first result that is not +infinity (an exception of a try is
    propagated) and +infinity when every admissible shift gave +infinity. *)
Theorem delta_retries_shifted_pcf (inner : Z -> Z -> result dval)
    (depth step max_shift : Z) (fuel : nat) :
  1 <= depth -> 1 <= step -> (shift_count step max_shift < fuel)%nat ->
  delta_dyn inner depth step max_shift fuel
  = Some (first_non_inf inner (depth + CIDS)
            (shifts_from 0 step (shift_count step max_shift))).
Proof.
  intros Hd Hs Hf. unfold delta_dyn, check_positive.
  destruct (Z.ltb_spec depth 1); [lia|].
  destruct (shift_count_bounds step max_shift Hs) as [B1 B2].
  apply delta_loop_tries; [exact Hf| lia |].
  intros i Hi. specialize (B2 i Hi). lia.
Qed.

(** The PCF shifted by 10 is the first try with a finite delta. *)
Definition inner_late (s d : Z) : result dval :=
  if s =? 10 then Ok (DVal 1) else Ok DInf.

Lemma delta_retries_shifted_pcf_witness :
  (1 <= 1 /\ 1 <= 5 /\ (shift_count 5 10 < 4)%nat) /\
  delta_dyn inner_late 1 5 10 4
  = Some (first_non_inf inner_late (1 + CIDS) (shifts_from 0 5 (shift_count 5 10))).
Proof.
  split; [vm_compute; repeat split; try lia; discriminate|].
  apply delta_retries_shifted_pcf; [lia | lia | vm_compute; lia].
Defined.

(** An inner delta that is +infinity only for the unshifted PCF at depth 3
    (= 1 + CIDS) and finite for it at every other depth, +infinity for every
    shifted PCF. *)
Definition inner_depth_sensitive (s d : Z) : result dval :=
  if s =? 0 then (if d =? 3 then Ok DInf else Ok (DVal 1)) else Ok DInf.

(** C5 (counterexample): the retry does not raise the depth.  With depth 1,
    shiftStep 5 and maxShift 10, the computation at the depth increased by
    shiftStep is finite, yet [delta] returns +infinity: its retries shift the
    PCF and keep the depth. *)
Lemma delta_retry_keeps_depth :
  inner_depth_sensitive 0 (1 + CIDS) = Ok DInf /\
  inner_depth_sensitive 0 (1 + 5) = Ok (DVal 1) /\
  inner_depth_sensitive 0 (1 + 5 + CIDS) = Ok (DVal 1) /\
  delta_dyn inner_depth_sensitive 1 5 10 10 = Some (Ok DInf).
Proof. vm_compute. repeat split. Qed.

Lemma delta_loop_stuck (fuel : nat) :
  delta_loop (fun _ _ => Ok DInf) 1 0 10 fuel 0 DInf = None.
Proof. induction fuel as [|fuel IH]; [reflexivity|]. exact IH. Qed.

(** C9 (counterexample): with shiftStep = 0, maxShift = 10 and an inner delta
    that is always +infinity, the shift loop of [delta] never ends: it has not
    returned after any number of loop tests. *)
Lemma delta_loop_unbounded_step0 : delta_diverges (fun _ _ => Ok DInf) 1 0 10.
Proof. intros fuel. exact (delta_loop_stuck fuel). Qed.

Lemma cd_delta_loop_bounded (inner : Z -> result dval) (max_iters depth_shift : Z) :
  forall fuel depth i delta success,
    0 <= i -> (Z.to_nat (max_iters - i) < fuel)%nat ->
    exists d' i', cd_delta_loop inner max_iters depth_shift fuel depth i delta success
                  = Some (d', i') /\ i' <= Z.max i max_iters.
Proof.
  induction fuel as [|fuel IH]; intros depth i delta success Hi Hf; [lia|].
  simpl. destruct (Z.ltb_spec i max_iters) as [Hlt|Hge].
  - rewrite andb_true_r.
    destruct (match delta with DInf => true | _ => false end || negb success).
    + destruct (match inner depth with
                | Ok DInf => (DInf, success)
                | Ok (DVal q) => (DVal q, true)
                | Ok DNone | Raise _ => (delta, false)
                end) as [d2 s2].
      destruct (IH (depth + depth_shift) (i + 1) d2 s2 ltac:(lia) ltac:(lia))
        as (d' & i' & E & B).
      exists d', i'. split; [exact E | lia].
    + exists delta, i. split; [reflexivity | lia].
  - rewrite andb_false_r. exists delta, i. split; [reflexivity | lia].
Qed.

Lemma cd_conv_loop_bounded (inner : Z -> result Q) (max_iters depth_shift : Z) :
  forall fuel depth i c success,
    0 <= i -> (Z.to_nat (max_iters - i) < fuel)%nat ->
    exists c' i', cd_conv_loop inner max_iters depth_shift fuel depth i c success
                  = Some (c', i') /\ i' <= Z.max i max_iters.
Proof.
  induction fuel as [|fuel IH]; intros depth i c success Hi Hf; [lia|].
  simpl. destruct (Z.ltb_spec i max_iters) as [Hlt|Hge].
  - rewrite andb_true_r. destruct success; simpl.
    + exists c, i. split; [reflexivity | lia].
    + destruct (inner depth) as [c2|e].
      * destruct (IH (depth + depth_shift) (i + 1) c2 true ltac:(lia) ltac:(lia))
          as (c' & i' & E & B).
        exists c', i'. split; [exact E | lia].
      * destruct (IH (depth + depth_shift) (i + 1) c false ltac:(lia) ltac:(lia))
          as (c' & i' & E & B).
        exists c', i'. split; [exact E | lia].
  - rewrite andb_false_r. exists c, i. split; [reflexivity | lia].
Qed.

(** C9 (amended): for shiftStep >= 1 (any depth, maxShift and any behaviour of
    the inner delta, exceptions and +infinity included), the shift loop of
    [delta] ends within [shift_count shiftStep maxShift + 1] loop tests, i.e. at
    most floor(maxShift / shiftStep) + 1 inner calls; each of the two loops of
    [compute_dynamics] ends after at most max(0, maxIters) iterations, for any
    depth, depthShift and inner behaviour. *)
Theorem retry_loops_bounded :
  (forall (inner : Z -> Z -> result dval) (depth step max_shift : Z),
     1 <= step ->
     exists r, delta_dyn inner depth step max_shift (S (shift_count step max_shift))
               = Some r) /\
  (forall (delta_inner : Z -> result dval) (conv_inner : Z -> result Q)
          (depth max_iters depth_shift : Z),
     exists d i c j,
       compute_dynamics delta_inner conv_inner depth max_iters depth_shift
                        (S (Z.to_nat max_iters)) = Some ((d, i), (c, j)) /\
       i <= Z.max 0 max_iters /\ j <= Z.max 0 max_iters).
Proof.
  split.
  - intros inner depth step max_shift Hs. unfold delta_dyn, check_positive.
    destruct (depth <? 1); [eexists; reflexivity|].
    destruct (shift_count_bounds step max_shift Hs) as [B1 B2].
    eexists. apply (delta_loop_tries _ _ _ _ (shift_count step max_shift));
      [lia | lia |].
    intros i Hi. specialize (B2 i Hi). lia.
  - intros delta_inner conv_inner depth max_iters depth_shift.
    unfold compute_dynamics.
    destruct (cd_delta_loop_bounded delta_inner max_iters depth_shift
                (S (Z.to_nat max_iters)) depth 0 DInf false ltac:(lia) ltac:(lia))
      as (d & i & E1 & B1).
    destruct (cd_conv_loop_bounded conv_inner max_iters depth_shift
                (S (Z.to_nat max_iters)) depth 0 0%Q false ltac:(lia) ltac:(lia))
      as (c & j & E2 & B2).
    rewrite E1, E2. exists d, i, c, j. split; [reflexivity | lia].
Qed.

Lemma retry_loops_bounded_witness :
  1 <= 5 /\
  exists r, delta_dyn (fun _ _ => Ok DInf) 1 5 10 (S (shift_count 5 10)) = Some r.
Proof.
  split; [lia|].
  exact (proj1 retry_loops_bounded (fun _ _ => Ok DInf) 1 5 10 ltac:(lia)).
Defined.

Lemma zrange_nth (a b : Z) (k : nat) :
  (k < Z.to_nat (b - a))%nat -> nth_error (zrange a b) k = Some (a + Z.of_nat k).
Proof.
  intros Hk. unfold zrange. rewrite nth_error_map, nth_error_seq.
  replace (k <? Z.to_nat (b - a))%nat with true by (symmetry; apply Nat.ltb_lt; lia).
  reflexivity.
Qed.

(** C7 (code_bug): for a depth d >= 1, [errors] reads the convergent at limit
    iteration d + CIDS and [delta] works at d + CIDS, but [q_reds] reads
    [pcf.limit(range(CIDS, d + CIDS))[d - 1]], the limit iteration d + CIDS - 1. *)
Theorem convergent_index_q_reds_off_by_one (d : Z) :
  1 <= d ->
  errors_iterations [d] = Ok [(d, d + CIDS)] /\
  delta_iteration d = Ok (d + CIDS) /\
  q_reds_iterations [d] = Ok [(d, Some (d + CIDS - 1))].
Proof.
  intros Hd. unfold errors_iterations, delta_iteration, q_reds_iterations,
    check_positive; simpl.
  destruct (Z.ltb_spec d 1); [lia|]. simpl.
  split; [reflexivity|]. split; [reflexivity|].
  rewrite zrange_nth by (unfold CIDS; lia).
  do 4 f_equal. unfold CIDS. lia.
Qed.

Lemma convergent_index_q_reds_off_by_one_witness :
  1 <= 1 /\
  errors_iterations [1] = Ok [(1, 1 + CIDS)] /\
  delta_iteration 1 = Ok (1 + CIDS) /\
  q_reds_iterations [1] = Ok [(1, Some (1 + CIDS - 1))].
Proof. split; [lia|]. apply convergent_index_q_reds_off_by_one; lia. Defined.

(** C6: [get_folded_pcf_limit] raises [SingularCoboundaryMatrixError] exactly
    when det U(1) = 0, with no retry; otherwise it returns the Moebius image of
    the limit under [foldedpcf.A() * U(1)^-1 * pcf.A()^-1].  The determinant is
    eta(0) * c(1) * c(0), c the (1,0) entry of the folded matrix. *)
Theorem folded_limit_transport (a b : Z -> Q) (factor : nat) (eta : Z -> Q)
    (folded_a0 limit : Q) :
  (get_folded_pcf_limit a b factor eta folded_a0 limit
     = Raise SingularCoboundaryMatrixError
   <-> qdet (as_pcf_cob_at (fold_at a b factor) eta 1) == 0) /\
  (~ qdet (as_pcf_cob_at (fold_at a b factor) eta 1) == 0 ->
   get_folded_pcf_limit a b factor eta folded_a0 limit
   = Ok (mobius (qmmul (qmmul (A_mat folded_a0)
                              (qinv (as_pcf_cob_at (fold_at a b factor) eta 1)))
                        (qinv (A_mat (a 0)))) limit)) /\
  qdet (as_pcf_cob_at (fold_at a b factor) eta 1)
  == eta 0 * q10 (fold_at a b factor 1) * q10 (fold_at a b factor 0).
Proof.
  unfold get_folded_pcf_limit.
  set (U1 := as_pcf_cob_at (fold_at a b factor) eta 1).
  split; [|split].
  - destruct (Qeq_bool (qdet U1) 0) eqn:E.
    + split; [intros _; now apply Qeq_bool_iff | reflexivity].
    + split; [discriminate|]. intros H. apply Qeq_bool_iff in H. congruence.
  - intros H. destruct (Qeq_bool (qdet U1) 0) eqn:E; [|reflexivity].
    apply Qeq_bool_iff in E. contradiction.
  - subst U1. unfold qdet, as_pcf_cob_at, qmmul. simpl. ring.
Qed.

Lemma folded_limit_transport_witness :
  ~ qdet (as_pcf_cob_at (fold_at (fun k => inject_Z (a_odd k)) (fun k => inject_Z (b_sq k)) 2)
            (fun _ => 1%Q) 1) == 0 /\
  get_folded_pcf_limit (fun k => inject_Z (a_odd k)) (fun k => inject_Z (b_sq k)) 2
    (fun _ => 1%Q) 1%Q 1%Q
  = Ok (mobius (qmmul (qmmul (A_mat 1%Q)
           (qinv (as_pcf_cob_at (fold_at (fun k => inject_Z (a_odd k))
                                        (fun k => inject_Z (b_sq k)) 2) (fun _ => 1%Q) 1)))
           (qinv (A_mat (inject_Z (a_odd 0))))) 1%Q).
Proof.
  assert (H : ~ qdet (as_pcf_cob_at (fold_at (fun k => inject_Z (a_odd k))
                        (fun k => inject_Z (b_sq k)) 2) (fun _ => 1%Q) 1) == 0)
    by (vm_compute; discriminate).
  split; [exact H|].
  exact (proj1 (proj2 (folded_limit_transport _ _ 2 (fun _ => 1%Q) 1%Q 1%Q)) H).
Defined.

(** ** Polynomial evaluation lemmas *)

Lemma peval_padd (p q : poly) (x : Z) :
  peval (padd p q) x = peval p x + peval q x.
Proof.
  revert q. induction p as [|c p IH]; intros [|d q]; simpl; try ring.
  rewrite IH. ring.
Qed.

Lemma peval_pscale (k : Z) (p : poly) (x : Z) :
  peval (pscale k p) x = k * peval p x.
Proof. induction p as [|c p IH]; simpl; [ring|]. rewrite IH. ring. Qed.

Lemma peval_pmul (p q : poly) (x : Z) :
  peval (pmul p q) x = peval p x * peval q x.
Proof.
  induction p as [|c p IH]; simpl; [reflexivity|].
  rewrite peval_padd, peval_pscale. simpl. rewrite IH. ring.
Qed.

Lemma peval_pnorm (p : poly) (x : Z) : peval (pnorm p) x = peval p x.
Proof.
  induction p as [|c p IH]; simpl; [reflexivity|].
  destruct (pnorm p) as [|d r] eqn:E.
  - simpl in IH. rewrite <- IH.
    destruct (Z.eqb_spec c 0); simpl; lia.
  - simpl in *. rewrite <- IH. reflexivity.
Qed.

Lemma zlist_eqb_eq (l1 l2 : list Z) : zlist_eqb l1 l2 = true -> l1 = l2.
Proof.
  revert l2. induction l1 as [|x l1 IH]; intros [|y l2]; simpl;
    try discriminate; [reflexivity|].
  intros H. apply andb_prop in H as [H1 H2].
  apply Z.eqb_eq in H1. subst. f_equal. now apply IH.
Qed.

Lemma peqb_eval (p q : poly) (x : Z) : peqb p q = true -> peval p x = peval q x.
Proof.
  unfold peqb. intros H. apply zlist_eqb_eq in H.
  rewrite <- (peval_pnorm p), <- (peval_pnorm q), H. reflexivity.
Qed.

Lemma pzero_eval (p : poly) (x : Z) : pnonzero p = false -> peval p x = 0.
Proof.
  unfold pnonzero. intros H. apply negb_false_iff, zlist_eqb_eq in H.
  rewrite <- peval_pnorm, H. reflexivity.
Qed.

Lemma peval_pshift (p : poly) (k x : Z) : peval (pshift p k) x = peval p (x + k).
Proof.
  induction p as [|c p IH]; [reflexivity|].
  unfold pshift in *. cbn [fold_right].
  rewrite peval_padd, peval_pmul, IH. cbn [peval]. ring.
Qed.

(** The certificate of [cancel_cert]. *)
Lemma cancel_cert_spec (p q p' q' G : poly) (K : Z) :
  cancel_cert p q = (p', q', G, K) ->
  K <> 0 /\
  (forall x, peval G x * peval p' x = K * peval p x) /\
  (forall x, peval G x * peval q' x = K * peval q x).
Proof.
  unfold cancel_cert.
  destruct (pnonzero q) eqn:Hq; cbn [negb].
  2:{ intros H; injection H as <- <- <- <-.
      split; [lia|]. split; intros x; cbn [peval]; ring. }
  destruct (pnonzero p) eqn:Hp; cbn [negb].
  2:{ intros H; injection H as <- <- <- <-.
      split; [lia|]. split; intros x; cbn [peval].
      - rewrite (pzero_eval p x Hp). ring.
      - ring. }
  cbv zeta.
  match goal with
  | |- (if ?c then _ else _) = _ -> _ => destruct c eqn:E
  end.
  - intros H; injection H as <- <- <- <-.
    apply andb_prop in E as [E E3]. apply andb_prop in E as [E1 E2].
    apply negb_true_iff, Z.eqb_neq in E1.
    split; [exact E1|]. split; intros x.
    + rewrite <- peval_pmul, <- peval_pscale. now apply peqb_eval.
    + rewrite <- peval_pmul, <- peval_pscale. now apply peqb_eval.
  - intros H; injection H as <- <- <- <-.
    split; [lia|]. split; intros x; cbn [peval]; ring.
Qed.

Lemma cancel_roots (r : rf) (x : Z) :
  (peval (rnum (cancel r)) x = 0 -> peval (rnum r) x = 0) /\
  (peval (rden (cancel r)) x = 0 -> peval (rden r) x = 0).
Proof.
  unfold cancel.
  destruct (cancel_cert (rnum r) (rden r)) as [[[p' q'] G] K] eqn:E.
  apply cancel_cert_spec in E as (HK & Hp & Hq). simpl.
  split; intros H0.
  - specialize (Hp x). rewrite H0, Z.mul_0_r in Hp.
    symmetry in Hp. apply Z.mul_eq_0 in Hp. tauto.
  - specialize (Hq x). rewrite H0, Z.mul_0_r in Hq.
    symmetry in Hq. apply Z.mul_eq_0 in Hq. tauto.
Qed.




(** Claim C3 (code bug).  Inflating [PCF(1/(n+2), 1)] (whose [inflated_by] is
    its lcm [n + 2]) by [c = 1] leaves [a], [b], [a_compute] and [b_compute]
    unchanged but gives [inflated_by = (n+2)^2], not [p.inflated_by * c = n + 2]:
    [inflate] passes [cancel(p.inflated_by * c)], which already holds the lcm
    [n + 2], and [PCF.__init__] multiplies it by the lcm [n + 2] again.  At
    [n = 0] the two differ (4 against 2), so [limit] divides by 4 instead of 2. *)
Theorem inflate_counts_lcm_twice :
  let q := inflate pcf_inv_n2 rf_one in
  pa q = pa pcf_inv_n2 /\ pb q = pb pcf_inv_n2 /\
  a_compute q = a_compute pcf_inv_n2 /\ b_compute q = b_compute pcf_inv_n2 /\
  inflated_by pcf_inv_n2 = RF [2; 1] [1] /\
  inflated_by q = RF [4; 4; 1] [1] /\
  ~ rf_equiv (inflated_by q) (rf_mul (inflated_by pcf_inv_n2) rf_one).
Proof.
  cbv zeta. repeat split; try (vm_compute; reflexivity).
  intros H. specialize (H 0).
  vm_compute in H. specialize (H ltac:(discriminate) ltac:(discriminate)).
  discriminate H.
Qed.

Lemma zrange_In (a b r : Z) : a <= r < b -> In r (zrange a b).
Proof.
  intros H. unfold zrange. apply in_map_iff.
  exists (Z.to_nat (r - a)). split; [lia|].
  apply in_seq. lia.
Qed.

Lemma pabs_sum_nonneg (p : poly) : 0 <= pabs_sum p.
Proof. induction p as [|c p IH]; simpl; lia. Qed.

Lemma pnonzero_cons_zero (p : poly) :
  pnonzero (0 :: p) = true -> pnonzero p = true.
Proof.
  unfold pnonzero. simpl.
  destruct (pnorm p); simpl; [discriminate|auto].
Qed.

(** An integer root of a nonzero polynomial is bounded by [pabs_sum]. *)
Lemma root_bound (p : poly) (r : Z) :
  pnonzero p = true -> peval p r = 0 -> Z.abs r <= pabs_sum p.
Proof.
  induction p as [|c p IH]; intros Hnz H0.
  - discriminate.
  - cbn [peval pabs_sum fold_right] in *. fold (pabs_sum p) in *.
    pose proof (pabs_sum_nonneg p).
    destruct (Z.eq_dec c 0) as [->|Hc].
    + destruct (Z.eq_dec r 0) as [->|Hr]; [lia|].
      assert (peval p r = 0) by nia.
      specialize (IH (pnonzero_cons_zero p Hnz) H1). lia.
    + assert (HP : peval p r <> 0) by (intros E; rewrite E in H0; lia).
      assert (Z.abs c = Z.abs r * Z.abs (peval p r))
        by (rewrite <- Z.abs_mul, <- (Z.abs_opp (r * _)); f_equal; lia).
      assert (1 <= Z.abs (peval p r)) by lia.
      assert (0 <= Z.abs r) by lia.
      nia.
Qed.

Lemma int_roots_complete (p : poly) (r : Z) :
  pnonzero p = true -> peval p r = 0 -> In r (int_roots p).
Proof.
  intros Hnz H0. unfold int_roots. rewrite Hnz. cbn [negb].
  pose proof (root_bound p r Hnz H0).
  apply filter_In. split.
  - apply zrange_In. lia.
  - now apply Z.eqb_eq.
Qed.

Lemma int_roots_sound (p : poly) (r : Z) : In r (int_roots p) -> peval p r = 0.
Proof.
  unfold int_roots. destruct (negb (pnonzero p)); [intros []|].
  intros H. apply filter_In in H as [_ H]. now apply Z.eqb_eq.
Qed.

Lemma zmax_list_ge (l : list Z) (x : Z) :
  In x l -> exists m, zmax_list l = Some m /\ x <= m.
Proof.
  destruct l as [|y l]; [intros []|].
  intros H. exists (fold_right Z.max y l). split; [reflexivity|].
  destruct H as [->|H].
  - clear. induction l as [|z l IH]; simpl; lia.
  - induction l as [|z l IH]; [destruct H|].
    destruct H as [->|H]; simpl; [lia|]. specialize (IH H). lia.
Qed.

Lemma zmax_list_In (l : list Z) (m : Z) : zmax_list l = Some m -> In m l.
Proof.
  destruct l as [|y l]; [discriminate|]. intros H. injection H as <-.
  induction l as [|z l IH]; simpl; [auto|].
  destruct (Z.max_spec z (fold_right Z.max y l)) as [[_ ->]|[_ ->]].
  - destruct IH; auto.
  - auto.
Qed.

Lemma zmax_roots_bound (q : poly) (x : Z) :
  pnonzero q = true -> peval q x = 0 ->
  exists m, zmax_list (int_roots q) = Some m /\ x <= m.
Proof. intros Hnz H0. apply zmax_list_ge, int_roots_complete; assumption. Qed.

Lemma zmax_roots_root (q : poly) (m : Z) :
  zmax_list (int_roots q) = Some m -> peval q m = 0.
Proof. intros H. apply int_roots_sound, zmax_list_In, H. Qed.

Section Viability.

Variable p : pcf.
Hypothesis Hda : pnonzero (rden (pa p)) = true.
Hypothesis Hdb : pnonzero (rden (pb p)) = true.
Hypothesis Hnb : pnonzero (rnum (pb p)) = true.

Lemma get_shift_viable : viable_at p (get_shift p).
Proof.
  intros x. split.
  - intros Hx H0.
    destruct (zmax_roots_bound _ _ Hda H0) as [m [Hm Hle]].
    assert (m + 1 <= get_shift p) by (unfold get_shift; rewrite Hm; lia).
    lia.
  - intros Hx. split; intros H0.
    + destruct (zmax_roots_bound _ _ Hdb H0) as [m [Hm Hle]].
      assert (m <= get_shift p) by (unfold get_shift; rewrite Hm; lia).
      lia.
    + destruct (zmax_roots_bound _ _ Hnb H0) as [m [Hm Hle]].
      assert (m <= get_shift p) by (unfold get_shift; rewrite Hm; lia).
      lia.
Qed.

End Viability.

(** No nonnegative viable shift lies below [get_shift]. *)
Lemma get_shift_le (p : pcf) (s' : Z) :
  0 <= s' -> viable_at p s' -> get_shift p <= s'.
Proof.
  intros Hs Hv. unfold get_shift.
  assert (A : match zmax_list (int_roots (rden (pa p))) with
              | None => 0 | Some m => m + 1 end <= s').
  { destruct (zmax_list (int_roots (rden (pa p)))) as [m|] eqn:Hm; [|lia].
    apply zmax_roots_root in Hm.
    destruct (Z_lt_le_dec (m - s') 0); [lia|].
    exfalso. apply (proj1 (Hv (m - s')) l).
    replace (m - s' + s') with m by ring. exact Hm. }
  assert (B : match zmax_list (int_roots (rden (pb p))) with
              | None => 0 | Some m => m end <= s').
  { destruct (zmax_list (int_roots (rden (pb p)))) as [m|] eqn:Hm; [|lia].
    apply zmax_roots_root in Hm.
    destruct (Z_lt_le_dec (m - s') 1); [lia|].
    exfalso. apply (proj1 (proj2 (Hv (m - s')) l)).
    replace (m - s' + s') with m by ring. exact Hm. }
  assert (C : match zmax_list (int_roots (rnum (pb p))) with
              | None => 0 | Some m => m end <= s').
  { destruct (zmax_list (int_roots (rnum (pb p)))) as [m|] eqn:Hm; [|lia].
    apply zmax_roots_root in Hm.
    destruct (Z_lt_le_dec (m - s') 1); [lia|].
    exfalso. apply (proj2 (proj2 (Hv (m - s')) l)).
    replace (m - s' + s') with m by ring. exact Hm. }
  lia.
Qed.

Lemma viable_at_mono (p : pcf) (s s' : Z) :
  s <= s' -> viable_at p s -> viable_at p s'.
Proof.
  intros Hle Hv x. specialize (Hv (x + (s' - s))).
  replace (x + (s' - s) + s) with (x + s') in Hv by ring.
  split; intros Hx; apply Hv; lia.
Qed.

(** The shifted PCF keeps the roots of [p] moved by [s]. *)
Lemma subs_shift_viable (p : pcf) (s : Z) :
  viable_at p s ->
  (forall x, 0 <= x -> peval (rden (pa (pcf_subs_shift p s))) x <> 0) /\
  (forall x, 1 <= x -> peval (rden (pb (pcf_subs_shift p s))) x <> 0 /\
                       peval (rnum (pb (pcf_subs_shift p s))) x <> 0).
Proof.
  intros Hv. unfold pcf_subs_shift, mk_pcf. cbv zeta. cbn [pa pb].
  split.
  - intros x Hx H0. apply (proj2 (cancel_roots _ x)) in H0.
    unfold rf_shift in H0. cbn [rden] in H0. rewrite peval_pshift in H0.
    exact (proj1 (Hv x) Hx H0).
  - intros x Hx. split; intros H0.
    + apply (proj2 (cancel_roots _ x)) in H0.
      unfold rf_shift in H0. cbn [rden] in H0. rewrite peval_pshift in H0.
      exact (proj1 (proj2 (Hv x) Hx) H0).
    + apply (proj1 (cancel_roots _ x)) in H0.
      unfold rf_shift in H0. cbn [rnum] in H0. rewrite peval_pshift in H0.
      exact (proj2 (proj2 (Hv x) Hx) H0).
Qed.

(** X17: when the denominators of [a] and [b] and the numerator of [b] are
    nonzero polynomials, [shift_to_viable] returns [(q, s)] where [q] (the PCF
    shifted by [s]) has no root of [a]'s denominator at any index [>= 0] and no
    root of [b]'s denominator or numerator at any index [>= 1]; [p] is viable
    at [s]; no nonnegative shift below [s] is viable; and for a PCF already
    viable at shift 0 the returned shift is [<= 0] (it is not clamped at 0). *)
Theorem shift_to_viable_spec (p : pcf) :
  pnonzero (rden (pa p)) = true ->
  pnonzero (rden (pb p)) = true ->
  pnonzero (rnum (pb p)) = true ->
  let q := fst (shift_to_viable p) in
  let s := snd (shift_to_viable p) in
  (forall x, 0 <= x -> peval (rden (pa q)) x <> 0) /\
  (forall x, 1 <= x -> peval (rden (pb q)) x <> 0 /\ peval (rnum (pb q)) x <> 0) /\
  viable_at p s /\
  (forall s', 0 <= s' < s -> ~ viable_at p s') /\
  (viable_at p 0 -> s <= 0).
Proof.
  intros Hda Hdb Hnb. cbv zeta. unfold shift_to_viable. cbv zeta. cbn [fst snd].
  pose proof (get_shift_viable p Hda Hdb Hnb) as Hv.
  destruct (subs_shift_viable p _ Hv) as [H1 H2].
  split; [exact H1|]. split; [exact H2|]. split; [exact Hv|].
  split.
  - intros s' Hs' Hv'. pose proof (get_shift_le p s' (proj1 Hs') Hv'). lia.
  - intros Hv0. apply get_shift_le; [lia|exact Hv0].
Qed.

(** Witness for [shift_to_viable_spec]: [PCF(1/(n-3), n)] is shifted by 4. *)
Lemma shift_to_viable_spec_witness :
  snd (shift_to_viable (mk_pcf (RF [1] [-3; 1]) (rf_of_poly [0; 1]) None)) = 4 /\
  let p := mk_pcf (RF [1] [-3; 1]) (rf_of_poly [0; 1]) None in
  let q := fst (shift_to_viable p) in
  let s := snd (shift_to_viable p) in
  (forall x, 0 <= x -> peval (rden (pa q)) x <> 0) /\
  (forall x, 1 <= x -> peval (rden (pb q)) x <> 0 /\ peval (rnum (pb q)) x <> 0) /\
  viable_at p s /\
  (forall s', 0 <= s' < s -> ~ viable_at p s') /\
  (viable_at p 0 -> s <= 0).
Proof.
  split; [vm_compute; reflexivity|].
  apply shift_to_viable_spec; vm_compute; reflexivity.
Defined.

(** Claim C4 (code bug).  [PCF(1/(n+5), (n+3)/(n+7))] is viable already (no
    root of a's denominator at an index [>= 0], none of b's denominator or
    numerator at an index [>= 1]), yet [get_shift] takes the largest integer
    root without clamping at 0 ([max(-5 + 1, -7, -3)]): [shift_to_viable]
    returns the shift [-3] and the PCF shifted back by 3, whose a has the
    denominator [n + 2] instead of [n + 5]. *)
Theorem shift_to_viable_negative_shift :
  viable_at pcf_viable_neg 0 /\
  get_shift pcf_viable_neg = -3 /\
  shift_to_viable pcf_viable_neg = (pcf_subs_shift pcf_viable_neg (-3), -3) /\
  pa (pcf_subs_shift pcf_viable_neg (-3)) = RF [1] [2; 1] /\
  pa pcf_viable_neg = RF [1] [5; 1].
Proof.
  split.
  - apply (viable_at_mono _ (get_shift pcf_viable_neg)).
    + vm_compute. discriminate.
    + apply get_shift_viable; vm_compute; reflexivity.
  - repeat split; vm_compute; reflexivity.
Qed.

(** Claim C8.  Deflating [PCF(1/(n+2), 1)] (content 1) a second time gives the
    same [a], [b], [a_compute] and [b_compute] as deflating it once, but a
    different [inflated_by]: [(n+2)^3] instead of [(n+2)^2] (the original PCF
    has [n+2]).  [limit] divides by [(inflated_by * (n+1))(0)], 8 instead of 4,
    so [deflate_all] is not idempotent and changes the computed limit. *)
Theorem deflate_all_twice_differs :
  let p1 := deflate_all pcf_inv_n2 in
  let p2 := deflate_all p1 in
  pa p2 = pa p1 /\ pb p2 = pb p1 /\
  a_compute p2 = a_compute p1 /\ b_compute p2 = b_compute p1 /\
  inflated_by pcf_inv_n2 = RF [2; 1] [1] /\
  inflated_by p1 = RF [4; 4; 1] [1] /\
  inflated_by p2 = RF [8; 12; 6; 1] [1] /\
  inflated_by p2 <> inflated_by p1.
Proof.
  vm_compute. repeat split. discriminate.
Qed.

(** ** Algebra of the step matrices *)

Lemma mmul_assoc (x y z : mat) : mmul (mmul x y) z = mmul x (mmul y z).
Proof. destruct x, y, z; unfold mmul; cbn [m00 m01 m10 m11]; f_equal; ring. Qed.

Lemma mmul_id_l (x : mat) : mmul mid x = x.
Proof. destruct x; unfold mmul, mid; cbn [m00 m01 m10 m11]; f_equal; ring. Qed.

Lemma mmul_id_r (x : mat) : mmul x mid = x.
Proof. destruct x; unfold mmul, mid; cbn [m00 m01 m10 m11]; f_equal; ring. Qed.

Lemma eval_from_lin (ac bc : Z -> Z) (s : nat) :
  forall m k, eval_from ac bc m k s = mmul m (eval_from ac bc mid k s).
Proof.
  induction s as [|s IH]; intros m k; simpl.
  - now rewrite mmul_id_r.
  - rewrite IH, (IH (mmul mid _)), mmul_id_l, mmul_assoc. reflexivity.
Qed.

Lemma eval_from_id_S (ac bc : Z -> Z) (k : Z) (s : nat) :
  eval_from ac bc mid k (S s) = mmul (rec_mat ac bc k) (eval_from ac bc mid (k + 1) s).
Proof. simpl. rewrite mmul_id_l. apply eval_from_lin. Qed.

Lemma mdet_mmul (x y : mat) : mdet (mmul x y) = mdet x * mdet y.
Proof. destruct x, y; unfold mdet, mmul; cbn [m00 m01 m10 m11]; ring. Qed.

Lemma eval_from_det (ac bc : Z -> Z) (s : nat) :
  forall m k, mdet (eval_from ac bc m k s) = mdet m * bprod bc k s.
Proof.
  induction s as [|s IH]; intros m k; simpl; [ring|].
  rewrite IH, mdet_mmul. unfold mdet, rec_mat; cbn [m00 m01 m10 m11]. ring.
Qed.

Lemma bprod_zero (bc : Z -> Z) (s : nat) :
  forall k0 k, k0 <= k < k0 + Z.of_nat s -> bc k = 0 -> bprod bc k0 s = 0.
Proof.
  induction s as [|s IH]; intros k0 k Hk H0; simpl; [lia|].
  destruct (Z.eq_dec k k0) as [->|Hne].
  - rewrite H0. ring.
  - rewrite (IH (k0 + 1) k); [ring|lia|exact H0].
Qed.

(** X1: [PCF.step] with initial conditions [M] is [M] times the step matrix
    computed from the identity: the initial conditions only multiply the
    product of the recurrence matrices on the left. *)
Theorem step_initial_conditions_factor (ac bc : Z -> Z) (depth : Z) (m : mat) :
  step ac bc depth (Some m)
  = match step ac bc depth (Some mid) with
    | Ok r => Ok (mmul m r)
    | Raise e => Raise e
    end.
Proof.
  unfold step, lirec_eval. destruct (depth <? 1); [reflexivity|].
  now rewrite (eval_from_lin _ _ _ m).
Qed.

Lemma step_mdet (ac bc : Z -> Z) (depth : Z) (ic : option mat) (M : mat) :
  step ac bc depth ic = Ok M ->
  mdet M = mdet (match ic with None => Mat 1 (ac 0) 0 1 | Some m => m end)
           * bprod bc 1 (Z.to_nat depth).
Proof.
  unfold step, lirec_eval. destruct (depth <? 1); [discriminate|].
  intros H. injection H as <-. apply eval_from_det.
Qed.

(** X2: the determinant of a step matrix is the determinant of the initial
    conditions times the product of [-b(k)] over [k = 1..depth]. *)
Theorem step_det (ac bc : Z -> Z) (depth : Z) (ic : option mat) (M : mat) :
  step ac bc depth ic = Ok M ->
  mdet M = mdet (match ic with None => Mat 1 (ac 0) 0 1 | Some m => m end)
           * bprod bc 1 (Z.to_nat depth).
Proof. apply step_mdet. Qed.

(** Witness for [step_det]: a(n) = 2n+1, b(n) = n^2 at depth 3, standard
    initial conditions. *)
Lemma step_det_witness :
  step a_odd b_sq 3 None = Ok (Mat 24 204 19 160) /\
  mdet (Mat 24 204 19 160) = mdet (Mat 1 (a_odd 0) 0 1) * bprod b_sq 1 (Z.to_nat 3).
Proof.
  split; [reflexivity|].
  apply (step_det a_odd b_sq 3 None). reflexivity.
Defined.

(** X3: a PCF whose partial numerator vanishes at some index [1..depth]
    (a truncating PCF) gets the sentinel precision 100 from its standard step
    matrix, whenever the denominators [q1, q2] are nonzero. *)
Theorem precision_truncated (ac bc : Z -> Z) (depth k base : Z) (M : mat) :
  step ac bc depth None = Ok M ->
  m10 M * m11 M <> 0 ->
  1 <= k <= depth -> bc k = 0 ->
  precision M base = 100.
Proof.
  intros Hs Hd Hk H0.
  pose proof (step_mdet _ _ _ _ _ Hs) as Hdet.
  rewrite (bprod_zero bc (Z.to_nat depth) 1 k) in Hdet; [|lia|exact H0].
  unfold precision. apply Z.eqb_neq in Hd. rewrite Hd.
  unfold mdet in Hdet.
  replace (m01 M * m10 M - m11 M * m00 M) with 0 by lia. reflexivity.
Qed.

(** Witness for [precision_truncated]: [a(n) = 1], [b(n) = n - 1] (so [b(1) = 0]),
    depth 2; the step matrix is [[1, 2], [1, 2]]. *)
Lemma precision_truncated_witness :
  step (fun _ => 1) (fun k => k - 1) 2 None = Ok (Mat 1 2 1 2) /\
  m10 (Mat 1 2 1 2) * m11 (Mat 1 2 1 2) <> 0 /\ 1 <= 1 <= 2 /\ 1 - 1 = 0 /\
  precision (Mat 1 2 1 2) 10 = 100.
Proof.
  split; [reflexivity|]. split; [cbn; lia|]. split; [lia|]. split; [reflexivity|].
  apply (precision_truncated (fun _ => 1) (fun k => k - 1) 2 1 10 (Mat 1 2 1 2));
    [reflexivity|cbn; lia|lia|reflexivity].
Defined.

Lemma inject_Z_nonzero (z : Z) : z <> 0 -> ~ (inject_Z z == 0)%Q.
Proof. intros Hz H. apply Hz. apply (proj1 (inject_Z_injective z 0)), H. Qed.

Lemma cf_tail_spec (ac bc : Z -> Z) (s : nat) :
  forall k t, cf_tail ac bc k s = Some t ->
  m11 (eval_from ac bc mid k s) <> 0 /\
  (inject_Z (m01 (eval_from ac bc mid k s)) / inject_Z (m11 (eval_from ac bc mid k s))
   == t)%Q.
Proof.
  induction s as [|s IH]; intros k t Ht.
  - injection Ht as <-. simpl. split; [discriminate|reflexivity].
  - cbn [cf_tail] in Ht.
    destruct (cf_tail ac bc (k + 1) s) as [t'|] eqn:E; [|discriminate].
    destruct (Qeq_bool (inject_Z (ac k) + t') 0) eqn:Ez; [discriminate|].
    injection Ht as <-. apply Qeq_bool_neq in Ez.
    destruct (IH _ _ E) as [H11 Hq].
    rewrite eval_from_id_S.
    set (P := eval_from ac bc mid (k + 1) s) in *.
    unfold mmul, rec_mat. cbn [m00 m01 m10 m11].
    assert (Ep : (inject_Z (m01 P) == inject_Z (m11 P) * t')%Q).
    { rewrite <- Hq. field. now apply inject_Z_nonzero. }
    assert (Ed : (inject_Z (1 * m01 P + ac k * m11 P)
                  == inject_Z (m11 P) * (inject_Z (ac k) + t'))%Q).
    { rewrite inject_Z_plus, !inject_Z_mult, Ep. ring. }
    assert (Hnz : 1 * m01 P + ac k * m11 P <> 0).
    { intros Z0. rewrite Z0 in Ed. symmetry in Ed.
      apply Qmult_integral in Ed as [Ed|Ed].
      - exact (inject_Z_nonzero _ H11 Ed).
      - exact (Ez Ed). }
    split; [exact Hnz|].
    rewrite Ed, inject_Z_plus, !inject_Z_mult.
    field. split; [exact Ez|now apply inject_Z_nonzero].
Qed.

Lemma step_value (ac bc : Z -> Z) (depth : Z) (t : Q) :
  1 <= depth -> cf_tail ac bc 1 (Z.to_nat depth) = Some t ->
  exists M, step ac bc depth None = Ok M /\ m11 M <> 0 /\
            (inject_Z (m01 M) / inject_Z (m11 M) == inject_Z (ac 0%Z) + t)%Q.
Proof.
  intros Hd Ht. unfold step, lirec_eval.
  destruct (Z.ltb_spec depth 1) as [Hlt|_]; [lia|].
  eexists; split; [reflexivity|].
  rewrite eval_from_lin.
  destruct (cf_tail_spec ac bc _ _ _ Ht) as [H11 Hq].
  set (P := eval_from ac bc mid 1 (Z.to_nat depth)) in *.
  unfold mmul. cbn [m00 m01 m10 m11].
  replace (0 * m01 P + 1 * m11 P) with (m11 P) by ring.
  split; [exact H11|].
  rewrite <- Hq, inject_Z_plus, !inject_Z_mult.
  field. now apply inject_Z_nonzero.
Qed.

(** X4: with the standard initial conditions, the step matrix at [depth]
    encodes the finite continued fraction
    [a(0) + b(1) / (a(1) + b(2) / (... + b(depth) / a(depth)))]: whenever that
    nested fraction has no zero denominator, [q2] is nonzero and [p2 / q2] is
    its value. *)
Theorem step_continued_fraction (ac bc : Z -> Z) (depth : Z) (t : Q) :
  1 <= depth -> cf_tail ac bc 1 (Z.to_nat depth) = Some t ->
  exists M, step ac bc depth None = Ok M /\ m11 M <> 0 /\
            (inject_Z (m01 M) / inject_Z (m11 M) == inject_Z (ac 0%Z) + t)%Q.
Proof. apply step_value. Qed.

(** Witness for [step_continued_fraction]: a(n) = 2n+1, b(n) = n^2 at depth 3,
    1 + 1/(3 + 4/(5 + 9/7)) = 51/40, the tail being 44/160 = 11/40. *)
Lemma step_continued_fraction_witness :
  (1 <= 3 /\ cf_tail a_odd b_sq 1 (Z.to_nat 3) = Some (44 # 160)%Q) /\
  exists M, step a_odd b_sq 3 None = Ok M /\ m11 M <> 0 /\
            (inject_Z (m01 M) / inject_Z (m11 M) == inject_Z (a_odd 0%Z) + (44 # 160))%Q.
Proof.
  split; [split; [lia|vm_compute; reflexivity]|].
  apply step_continued_fraction; [lia|vm_compute; reflexivity].
Defined.

(** X5: [PCF.limit(depth, return_sympy_rational=True)] without initial
    conditions returns the exact rational [sp.Rational(p2 * ifac_den,
    q2 * ifac_num)]: the value of the finite continued fraction
    [a(0) + b(1) / (a(1) + ... + b(depth) / a(depth))] divided by the
    inflation factor [ifac_num / ifac_den] of [(inflated_by * (n+1))(0)],
    whenever that fraction has no zero denominator. *)
Theorem limit_rational_value (ac bc : Z -> Z) (ifac_num ifac_den depth : Z)
    (prec : option Z) (t : Q) :
  1 <= depth -> ifac_num <> 0 -> cf_tail ac bc 1 (Z.to_nat depth) = Some t ->
  exists v pr,
    limit ac bc ifac_num ifac_den depth None prec true = Ok (LimitOut None v pr) /\
    (v == (inject_Z (ac 0%Z) + t) * inject_Z ifac_den / inject_Z ifac_num)%Q.
Proof.
  intros Hd Hn Ht.
  destruct (step_value ac bc depth t Hd Ht) as [M [HM [H11 Hq]]].
  unfold limit. rewrite HM. cbn [bind].
  do 2 eexists. split; [reflexivity|].
  rewrite <- Hq, !inject_Z_mult. field.
  split; now apply inject_Z_nonzero.
Qed.

(** Witness for [limit_rational_value]: a(n) = 2n+1, b(n) = n^2 at depth 3
    with inflation factor 1. *)
Lemma limit_rational_value_witness :
  (1 <= 3 /\ 1 <> 0 /\ cf_tail a_odd b_sq 1 (Z.to_nat 3) = Some (44 # 160)%Q) /\
  exists v pr,
    limit a_odd b_sq 1 1 3 None None true = Ok (LimitOut None v pr) /\
    (v == (inject_Z (a_odd 0%Z) + (44 # 160)) * inject_Z 1 / inject_Z 1)%Q.
Proof.
  split; [split; [lia|split; [lia|vm_compute; reflexivity]]|].
  apply limit_rational_value; [lia|lia|vm_compute; reflexivity].
Defined.

Lemma gcd_split (p q : Z) :
  q <> 0 -> 0 < Z.gcd p q /\ q = Z.gcd p q * (q / Z.gcd p q).
Proof.
  intros Hq.
  assert (Hg : Z.gcd p q <> 0) by (intros E; apply Z.gcd_eq_0 in E; lia).
  pose proof (Z.gcd_nonneg p q).
  split; [lia|].
  apply Z.div_exact; [exact Hg|].
  apply Z.mod_divide; [exact Hg|apply Z.gcd_divide_r].
Qed.

Lemma pcf_delta_undefined_iff (p q : Z) (limit : R) :
  pcf_delta p q limit = DeltaUndefined <-> 0 < q /\ (q | p).
Proof.
  destruct (Z.eq_dec q 0) as [->|Hq].
  - unfold pcf_delta. rewrite Z.gcd_0_r.
    destruct (Z.eqb_spec (Z.abs p) 0); [split; [discriminate|lia]|].
    rewrite Z.div_0_l by lia. cbn. split; [discriminate|lia].
  - destruct (gcd_split p q Hq) as [Hg Eq].
    unfold pcf_delta.
    destruct (Z.eqb_spec (Z.gcd p q) 0) as [E|_]; [lia|].
    destruct (Z.eqb_spec (q / Z.gcd p q) 1) as [E1|E1].
    + rewrite E1, Z.mul_1_r in Eq. split; [intros _|reflexivity].
      split; [lia|]. rewrite Eq. apply Z.gcd_divide_l.
    + split.
      * destruct (q / Z.gcd p q <? 1); [discriminate|].
        destruct (Req_EM_T _ _); discriminate.
      * intros [Hpos Hdiv]. exfalso. apply E1.
        assert (Z.gcd p q = q).
        { rewrite Z.gcd_comm. apply Z.divide_gcd_iff; [lia|exact Hdiv]. }
        rewrite H. apply Z.div_same. lia.
Qed.

(** X7: [PCF.delta(depth, limit)] called with a limit returns [None]
    (undefined) exactly when [step(depth)] succeeds with a denominator
    [q = step_mat[1][1] > 0] that divides the numerator [p = step_mat[0][1]],
    i.e. when the convergent is an integer written with a positive
    denominator; this does not depend on the limit. *)
Theorem delta_with_limit_undefined (ac bc : Z -> Z) (depth : Z) (limit : R) :
  delta_with_limit ac bc depth limit = Ok DeltaUndefined <->
  exists M, step ac bc depth None = Ok M /\ 0 < m11 M /\ (m11 M | m01 M).
Proof.
  unfold delta_with_limit.
  destruct (step ac bc depth None) as [M|e]; cbn [bind].
  - split.
    + intros H. injection H as H. exists M. split; [reflexivity|].
      apply pcf_delta_undefined_iff in H. exact H.
    + intros [M' [HM' H]]. injection HM' as <-.
      f_equal. apply pcf_delta_undefined_iff. exact H.
  - split; [discriminate|intros [M [HM _]]; discriminate].
Qed.

(** X9: [mobius] turns matrix products into composition: if [N] maps [z]
    to the finite value [w], then [M * N] maps [z] where [M] maps [w]
    (both infinite, or both finite and equal). *)
Theorem mobius_compose (M N : qmat) (z w : Q) :
  mobius N z = MobFin w -> mob_eq (mobius (qmmul M N) z) (mobius M w).
Proof.
  unfold mobius at 1. cbv zeta.
  destruct (Qeq_bool (q10 N * z + q11 N) 0) eqn:EN; [discriminate|].
  intros H; injection H as <-. apply Qeq_bool_neq in EN.
  assert (Ed : (q10 (qmmul M N) * z + q11 (qmmul M N)
                == (q10 N * z + q11 N)
                   * (q10 M * ((q00 N * z + q01 N) / (q10 N * z + q11 N)) + q11 M))%Q)
    by (unfold qmmul; cbn [q00 q01 q10 q11]; field; exact EN).
  assert (En : (q00 (qmmul M N) * z + q01 (qmmul M N)
                == (q10 N * z + q11 N)
                   * (q00 M * ((q00 N * z + q01 N) / (q10 N * z + q11 N)) + q01 M))%Q)
    by (unfold qmmul; cbn [q00 q01 q10 q11]; field; exact EN).
  unfold mobius. cbv zeta.
  destruct (Qeq_bool (q10 (qmmul M N) * z + q11 (qmmul M N)) 0) eqn:E1;
  destruct (Qeq_bool (q10 M * ((q00 N * z + q01 N) / (q10 N * z + q11 N)) + q11 M) 0)
    eqn:E2; cbn [mob_eq]; try exact I.
  - apply Qeq_bool_iff in E1. apply Qeq_bool_neq in E2.
    rewrite Ed in E1. apply Qmult_integral in E1 as [E|E]; contradiction.
  - apply Qeq_bool_neq in E1. apply Qeq_bool_iff in E2.
    apply E1. rewrite Ed, E2. ring.
  - apply Qeq_bool_neq in E1. apply Qeq_bool_neq in E2.
    rewrite Ed, En. field. split; [exact EN|].
    intros E. apply E2.
    assert (E' : ((q10 N * z + q11 N)
                  * (q10 M * ((q00 N * z + q01 N) / (q10 N * z + q11 N)) + q11 M) == 0)%Q)
      by (rewrite <- E; field; exact EN).
    apply Qmult_integral in E' as [E'|E']; [contradiction|exact E'].
Qed.

(** Witness for [mobius_compose]: [[1, 1], [0, 1]] maps 0 to 1. *)
Lemma mobius_compose_witness :
  mobius (QMat 1 1 0 1) 0 = MobFin 1 /\
  mob_eq (mobius (qmmul (QMat 2 3 1 1) (QMat 1 1 0 1)) 0) (mobius (QMat 2 3 1 1) 1).
Proof.
  split; [vm_compute; reflexivity|].
  apply mobius_compose. vm_compute. reflexivity.
Defined.

(** X10: the inverse matrix undoes [mobius]: for [det M <> 0], if [M] maps
    [z] to the finite value [w], then [M^-1] maps [w] back to [z]. *)
Theorem mobius_inverse (M : qmat) (z w : Q) :
  ~ (qdet M == 0)%Q -> mobius M z = MobFin w -> mob_eq (mobius (qinv M) w) (MobFin z).
Proof.
  intros Hdet. unfold mobius at 1. cbv zeta.
  destruct (Qeq_bool (q10 M * z + q11 M) 0) eqn:EN; [discriminate|].
  intros H; injection H as <-. apply Qeq_bool_neq in EN.
  unfold qdet in Hdet.
  assert (Ed : (q10 (qinv M) * ((q00 M * z + q01 M) / (q10 M * z + q11 M)) + q11 (qinv M)
                == 1 / (q10 M * z + q11 M))%Q)
    by (unfold qinv, qdet; cbn [q00 q01 q10 q11]; field; split; assumption).
  assert (En : (q00 (qinv M) * ((q00 M * z + q01 M) / (q10 M * z + q11 M)) + q01 (qinv M)
                == z / (q10 M * z + q11 M))%Q)
    by (unfold qinv, qdet; cbn [q00 q01 q10 q11]; field; split; assumption).
  unfold mobius. cbv zeta.
  destruct (Qeq_bool _ 0) eqn:E1; cbn [mob_eq].
  - apply Qeq_bool_iff in E1. rewrite Ed in E1.
    apply EN. rewrite <- (Qmult_1_l (q10 M * z + q11 M)).
    setoid_replace 1%Q with (1 / (q10 M * z + q11 M) * (q10 M * z + q11 M))%Q at 1
      by (field; exact EN).
    rewrite E1. ring.
  - apply Qeq_bool_neq in E1. rewrite Ed in E1 |- *. rewrite En.
    field. exact EN.
Qed.

(** Witness for [mobius_inverse]: [[2, 3], [1, 1]] maps 1 to 5/2. *)
Lemma mobius_inverse_witness :
  (~ (qdet (QMat 2 3 1 1) == 0)%Q /\ mobius (QMat 2 3 1 1) 1 = MobFin (5 # 2)) /\
  mob_eq (mobius (qinv (QMat 2 3 1 1)) (5 # 2)) (MobFin 1).
Proof.
  split; [split; [vm_compute; discriminate|vm_compute; reflexivity]|].
  apply mobius_inverse; [vm_compute; discriminate|vm_compute; reflexivity].
Defined.

(** ** Rational matrix products *)

Lemma qmat_eq_refl (x : qmat) : qmat_eq x x.
Proof. unfold qmat_eq. repeat split; reflexivity. Qed.

Lemma qmat_eq_trans (x y z : qmat) : qmat_eq x y -> qmat_eq y z -> qmat_eq x z.
Proof.
  unfold qmat_eq. intros (H1 & H2 & H3 & H4) (G1 & G2 & G3 & G4).
  repeat split; eapply Qeq_trans; eauto.
Qed.

Lemma qmmul_proper (x x' y y' : qmat) :
  qmat_eq x x' -> qmat_eq y y' -> qmat_eq (qmmul x y) (qmmul x' y').
Proof.
  destruct x, x', y, y'. unfold qmat_eq, qmmul. cbn [q00 q01 q10 q11].
  intros (H1 & H2 & H3 & H4) (G1 & G2 & G3 & G4).
  rewrite H1, H2, H3, H4, G1, G2, G3, G4. repeat split; reflexivity.
Qed.

Lemma qmmul_assoc (x y z : qmat) : qmat_eq (qmmul (qmmul x y) z) (qmmul x (qmmul y z)).
Proof. unfold qmat_eq, qmmul. cbn [q00 q01 q10 q11]. repeat split; ring. Qed.

Lemma qmmul_id_l (x : qmat) : qmat_eq (qmmul qid x) x.
Proof. unfold qmat_eq, qmmul, qid. cbn [q00 q01 q10 q11]. repeat split; ring. Qed.

Lemma qmmul_id_r (x : qmat) : qmat_eq (qmmul x qid) x.
Proof. unfold qmat_eq, qmmul, qid. cbn [q00 q01 q10 q11]. repeat split; ring. Qed.

Lemma qeval_from_proper (a b : Z -> Q) (s : nat) :
  forall m m' k, qmat_eq m m' -> qmat_eq (qeval_from a b m k s) (qeval_from a b m' k s).
Proof.
  induction s as [|s IH]; intros m m' k H; simpl; [exact H|].
  apply IH, qmmul_proper; [exact H|apply qmat_eq_refl].
Qed.

Lemma qmat_eq_sym (x y : qmat) : qmat_eq x y -> qmat_eq y x.
Proof. unfold qmat_eq. intros (H1 & H2 & H3 & H4). repeat split; symmetry; assumption. Qed.

Lemma qeval_from_lin (a b : Z -> Q) (s : nat) :
  forall m k, qmat_eq (qeval_from a b m k s) (qmmul m (qeval_from a b qid k s)).
Proof.
  induction s as [|s IH]; intros m k; simpl.
  - apply qmat_eq_sym, qmmul_id_r.
  - set (R := qrec_mat a b k). set (E := qeval_from a b qid (k + 1) s).
    apply qmat_eq_trans with (qmmul (qmmul m R) E); [apply IH|].
    apply qmat_eq_trans with (qmmul m (qmmul R E)); [apply qmmul_assoc|].
    apply qmmul_proper; [apply qmat_eq_refl|].
    apply qmat_eq_sym. apply qmat_eq_trans with (qmmul (qmmul qid R) E); [apply IH|].
    apply qmmul_proper; [apply qmmul_id_l|apply qmat_eq_refl].
Qed.

Lemma qeval_from_app (a b : Z -> Q) (s1 s2 : nat) :
  forall m k, qeval_from a b m k (s1 + s2)
              = qeval_from a b (qeval_from a b m k s1) (k + Z.of_nat s1) s2.
Proof.
  induction s1 as [|s1 IH]; intros m k; simpl.
  - now rewrite Z.add_0_r.
  - rewrite IH. f_equal. lia.
Qed.

Lemma fold_at_seq (a b : Z -> Q) (F x : Z) (s : nat) :
  forall j m,
  fold_left (fun acc i => qmmul acc (qrec_mat a b (F * x - (F - 1 - Z.of_nat i))))
            (seq j s) m
  = qeval_from a b m (F * x - F + 1 + Z.of_nat j) s.
Proof.
  induction s as [|s IH]; intros j m; [reflexivity|].
  cbn [seq fold_left qeval_from].
  rewrite IH.
  replace (F * x - (F - 1 - Z.of_nat j)) with (F * x - F + 1 + Z.of_nat j) by lia.
  f_equal. lia.
Qed.

Lemma fold_at_eval (a b : Z -> Q) (factor : nat) (x : Z) :
  fold_at a b factor x
  = qeval_from a b qid (Z.of_nat factor * x - Z.of_nat factor + 1) factor.
Proof.
  unfold fold_at. rewrite fold_at_seq. f_equal. lia.
Qed.

Lemma fold_prod_eval (a b : Z -> Q) (factor N : nat) :
  forall m x, qmat_eq (fold_prod a b factor m x N)
    (qeval_from a b m (Z.of_nat factor * x - Z.of_nat factor + 1) (factor * N)).
Proof.
  induction N as [|N IH]; intros m x.
  - rewrite Nat.mul_0_r. apply qmat_eq_refl.
  - cbn [fold_prod].
    eapply qmat_eq_trans; [apply IH|].
    replace (factor * S N)%nat with (factor + factor * N)%nat by lia.
    rewrite qeval_from_app.
    replace (Z.of_nat factor * x - Z.of_nat factor + 1 + Z.of_nat factor)
      with (Z.of_nat factor * (x + 1) - Z.of_nat factor + 1) by lia.
    apply qeval_from_proper.
    rewrite fold_at_eval.
    apply qmat_eq_sym, qeval_from_lin.
Qed.

(** X11: folding by [factor] groups the recurrence: the product of the
    folded matrices [fold_matrix(pcf.M(), factor)] at [n = 1..N] equals the
    product of the original matrices [pcf.M()] at [n = 1..factor*N]. *)
Theorem fold_matrix_product (a b : Z -> Q) (factor N : nat) :
  qmat_eq (fold_prod a b factor qid 1 N) (qeval_from a b qid 1 (factor * N)).
Proof.
  eapply qmat_eq_trans; [apply fold_prod_eval|].
  replace (Z.of_nat factor * 1 - Z.of_nat factor + 1) with 1 by lia.
  apply qmat_eq_refl.
Qed.

(** X12: the coboundary relation of [as_pcf_polys], [g1(n) M(n) U(n+1) =
    g2(n) U(n) PCF.M(n)], with [g1 = c(n-1)] (the (1,0) cell of [matrix] at
    [n-1]), [g2 = eta], [U = as_pcf_cob(matrix)] and [PCF] the PCF that
    [as_pcf] builds from the cells, inflated by [1/eta] (for a polynomial
    matrix, the deflation by [eta = as_pcf_eta(matrix)]): it holds at every
    [n] where [eta(n)] and [eta(n-1)] are nonzero, whatever the cells. *)
Theorem as_pcf_coboundary (fm : Z -> qmat) (eta : Z -> Q) (x : Z) :
  ~ (eta x == 0)%Q -> ~ (eta (x - 1)%Z == 0)%Q ->
  qmat_eq (qmscale (q10 (fm (x - 1))) (qmmul (fm x) (as_pcf_cob_at fm eta (x + 1))))
          (qmscale (eta x) (qmmul (as_pcf_cob_at fm eta x) (as_pcf_at fm eta x))).
Proof.
  intros H1 H2.
  unfold as_pcf_cob_at, as_pcf_at, qmscale, qmmul, qmat_eq.
  replace (x + 1 - 1) with x by ring.
  cbn [q00 q01 q10 q11].
  repeat split; field; split; assumption.
Qed.

(** Witness for [as_pcf_coboundary]: the matrix [[n, 1], [1, n]] with
    [eta = 1] at [n = 2]. *)
Lemma as_pcf_coboundary_witness :
  (~ (1 == 0)%Q /\ ~ (1 == 0)%Q) /\
  qmat_eq (qmscale (q10 ((fun k => QMat (inject_Z k) 1 1 (inject_Z k)) (2 - 1)))
             (qmmul ((fun k => QMat (inject_Z k) 1 1 (inject_Z k)) 2)
                    (as_pcf_cob_at (fun k => QMat (inject_Z k) 1 1 (inject_Z k))
                                   (fun _ => 1%Q) (2 + 1))))
          (qmscale ((fun _ => 1%Q) 2)
             (qmmul (as_pcf_cob_at (fun k => QMat (inject_Z k) 1 1 (inject_Z k))
                                   (fun _ => 1%Q) 2)
                    (as_pcf_at (fun k => QMat (inject_Z k) 1 1 (inject_Z k))
                               (fun _ => 1%Q) 2))).
Proof.
  split; [split; vm_compute; discriminate|].
  apply (as_pcf_coboundary (fun k => QMat (inject_Z k) 1 1 (inject_Z k)) (fun _ => 1%Q) 2);
    vm_compute; discriminate.
Defined.

(** Membership in [sorted(list(set(...)))] and its ordering. *)
Lemma ins_uniq_In (x y : Z) (l : list Z) :
  In y (ins_uniq x l) <-> y = x \/ In y l.
Proof.
  induction l as [|z l IH]; cbn [ins_uniq].
  - cbn. intuition.
  - destruct (x <? z) eqn:E1; [cbn; intuition|].
    destruct (x =? z) eqn:E2.
    + apply Z.eqb_eq in E2. subst z. cbn. intuition.
    + cbn. rewrite IH. intuition.
Qed.

Lemma sorted_set_In (y : Z) (l : list Z) : In y (sorted_set l) <-> In y l.
Proof.
  induction l as [|x l IH]; unfold sorted_set in *; cbn [fold_right].
  - reflexivity.
  - rewrite ins_uniq_In, IH. cbn. intuition.
Qed.

Lemma ins_uniq_hd (x y : Z) (l : list Z) :
  HdRel Z.lt y l -> y < x -> HdRel Z.lt y (ins_uniq x l).
Proof.
  intros H Hx. destruct l as [|z l]; cbn [ins_uniq].
  - constructor. exact Hx.
  - inversion H; subst.
    destruct (x <? z); [constructor; exact Hx|].
    destruct (x =? z); constructor; assumption.
Qed.

Lemma ins_uniq_sorted (x : Z) (l : list Z) :
  Sorted Z.lt l -> Sorted Z.lt (ins_uniq x l).
Proof.
  induction l as [|z l IH]; intros H; cbn [ins_uniq].
  - repeat constructor.
  - destruct (x <? z) eqn:E1.
    + apply Z.ltb_lt in E1. constructor; [exact H|constructor; exact E1].
    + destruct (x =? z) eqn:E2; [exact H|].
      apply Z.ltb_ge in E1. apply Z.eqb_neq in E2.
      inversion H; subst. constructor; [apply IH; assumption|].
      apply ins_uniq_hd; [assumption|lia].
Qed.

Lemma sorted_set_sorted (l : list Z) : Sorted Z.lt (sorted_set l).
Proof.
  induction l as [|x l IH]; unfold sorted_set in *; cbn [fold_right].
  - constructor.
  - apply ins_uniq_sorted. exact IH.
Qed.

Lemma sorted_head_min (x y : Z) (l : list Z) :
  Sorted Z.lt (x :: l) -> In y l -> x < y.
Proof.
  intros H Hy. apply Sorted_extends in H; [|intros a b c; apply Z.lt_trans].
  rewrite Forall_forall in H. apply H. exact Hy.
Qed.

Lemma last_In (l : list Z) (d : Z) : l <> [] -> In (last l d) l.
Proof.
  induction l as [|x l IH]; intros H; [congruence|].
  destruct l as [|y l]; [left; reflexivity|].
  right. apply IH. discriminate.
Qed.

Lemma sorted_last_max (l : list Z) (y : Z) :
  Sorted Z.lt l -> In y l -> y <= last l 0.
Proof.
  induction l as [|x l IH]; intros H Hy; [contradiction|].
  destruct l as [|z l].
  - destruct Hy as [Hy|[]]. subst. cbn. lia.
  - change (last (x :: z :: l) 0) with (last (z :: l) 0).
    destruct Hy as [Hy|Hy].
    + subst y. assert (x < last (z :: l) 0); [|lia].
      apply (sorted_head_min x _ (z :: l)); [exact H|apply last_In; discriminate].
    + apply IH; [inversion H; assumption|exact Hy].
Qed.

Lemma sorted_set_sorted_id (l : list Z) : Sorted Z.lt l -> sorted_set l = l.
Proof.
  induction l as [|x l IH]; intros H; [reflexivity|].
  unfold sorted_set in *. cbn [fold_right]. rewrite IH by (inversion H; assumption).
  destruct l as [|y l]; [reflexivity|].
  inversion H as [|? ? ? Hhd]; subst. inversion Hhd; subst.
  cbn [ins_uniq]. replace (x <? y) with true by (symmetry; apply Z.ltb_lt; assumption).
  reflexivity.
Qed.

(** The exception behaviour and the output of [errors], as an iff. *)
Lemma errors_iterations_raises (depths : list Z) :
  (exists e, errors_iterations depths = Raise e) <->
  depths = [] \/ exists d, In d depths /\ d < 1.
Proof.
  unfold errors_iterations.
  destruct (sorted_set depths) as [|d0 ds] eqn:E.
  - split; [intros _; left|intros _; exists ValueError; reflexivity].
    destruct depths as [|z depths]; [reflexivity|exfalso].
    assert (Hz : In z (sorted_set (z :: depths))) by (apply sorted_set_In; left; reflexivity).
    rewrite E in Hz. exact Hz.
  - assert (Hd0 : In d0 depths) by (apply sorted_set_In; rewrite E; left; reflexivity).
    assert (Hmin : forall d, In d depths -> d0 <= d).
    { intros d Hd. apply sorted_set_In in Hd. rewrite E in Hd.
      destruct Hd as [Hd|Hd]; [lia|].
      pose proof (sorted_set_sorted depths) as HS. rewrite E in HS.
      pose proof (sorted_head_min _ _ _ HS Hd). lia. }
    unfold check_positive. destruct (d0 <? 1) eqn:E1; cbn [bind].
    + apply Z.ltb_lt in E1. split; [intros _; right; exists d0; auto|].
      intros _. exists ValueError. reflexivity.
    + apply Z.ltb_ge in E1. split; [intros [e He]; discriminate|].
      intros [Hn|[d [Hd Hlt]]]; [subst; contradiction|].
      specialize (Hmin d Hd). lia.
Qed.

Lemma errors_iterations_ok (depths : list Z) (l : list (Z * Z)) :
  errors_iterations depths = Ok l ->
  Sorted Z.lt (map fst l) /\ (forall d, In d (map fst l) <-> In d depths) /\
  (forall d i, In (d, i) l -> 1 <= d /\ i = d + CIDS).
Proof.
  unfold errors_iterations.
  destruct (sorted_set depths) as [|d0 ds] eqn:E; [discriminate|].
  unfold check_positive. destruct (d0 <? 1) eqn:E1; cbn [bind]; [discriminate|].
  apply Z.ltb_ge in E1. intros H. injection H as <-.
  pose proof (sorted_set_sorted depths) as HS. rewrite E in HS.
  assert (Hf : map fst ((d0, d0 + CIDS) :: map (fun d => (d, d + CIDS)) ds) = d0 :: ds).
  { cbn [map fst]. f_equal. rewrite map_map. apply map_id. }
  rewrite Hf. split; [exact HS|split].
  - intros d. rewrite <- (sorted_set_In d depths), E. reflexivity.
  - intros d i [Hi|Hi].
    + injection Hi as <- <-. split; [lia|reflexivity].
    + apply in_map_iff in Hi. destruct Hi as [d' [Hd' Hin]].
      injection Hd' as <- <-. split; [|reflexivity].
      pose proof (sorted_head_min _ _ _ HS Hin). lia.
Qed.

Lemma depths_for_fit_In (depth d : Z) :
  In d (depths_for_fit depth) <->
  d = 6 \/ d = depth / 8 \/ d = depth / 4 \/ d = depth / 2 \/ d = depth.
Proof.
  unfold depths_for_fit. rewrite sorted_set_In. cbn. intuition.
Qed.

(** X13: the checks [PCFDynamics.errors] makes before it calls [pcf.limit]
    ([depths[0]] of the sorted, deduplicated list and [check_positive] on it)
    fail exactly when the depth list is empty or holds a depth below 1; when
    they pass, the depths are the distinct input depths in increasing order,
    and depth [d] reads the limit at iteration [d + CIDS].  (Errors raised
    later by [pcf.limit] itself are outside this statement.) *)
Theorem errors_iterations_spec (depths : list Z) :
  ((exists e, errors_iterations depths = Raise e) <->
   depths = [] \/ exists d, In d depths /\ d < 1) /\
  (forall l, errors_iterations depths = Ok l ->
     Sorted Z.lt (map fst l) /\ (forall d, In d (map fst l) <-> In d depths) /\
     (forall d i, In (d, i) l -> i = d + CIDS)).
Proof.
  split; [apply errors_iterations_raises|].
  intros l H. destruct (errors_iterations_ok depths l H) as [H1 [H2 H3]].
  split; [exact H1|split; [exact H2|]].
  intros d i Hi. apply (H3 d i Hi).
Qed.

(** X14: [convergence_rate] raises [ValueError] (from its own check or from
    [errors] on the fit depth [depth // 8 = 0]) exactly when [depth < 8]. *)
Theorem convergence_rate_raises (depth : Z) :
  convergence_rate_iterations depth = Raise ValueError <-> depth < 8.
Proof.
  unfold convergence_rate_iterations, check_positive.
  destruct (depth <? 1) eqn:E; cbn [bind].
  - apply Z.ltb_lt in E. split; [intros _; lia|reflexivity].
  - apply Z.ltb_ge in E. split.
    + intros H. assert (Hr : exists e, errors_iterations (depths_for_fit depth) = Raise e)
        by (exists ValueError; exact H).
      apply errors_iterations_raises in Hr.
      destruct Hr as [Hn|[d [Hd Hlt]]].
      * exfalso. assert (H6 : In 6 (depths_for_fit depth))
          by (apply depths_for_fit_In; left; reflexivity).
        rewrite Hn in H6. exact H6.
      * apply depths_for_fit_In in Hd.
        destruct (Z.lt_ge_cases depth 8) as [|Hge]; [assumption|exfalso].
        assert (1 <= depth / 8) by (apply Z.div_le_lower_bound; lia).
        assert (depth / 8 <= depth / 4) by (apply Z.div_le_compat_l; lia).
        assert (depth / 4 <= depth / 2) by (apply Z.div_le_compat_l; lia).
        lia.
    + intros Hlt.
      assert (Hc : depth = 1 \/ depth = 2 \/ depth = 3 \/ depth = 4 \/ depth = 5 \/
                   depth = 6 \/ depth = 7) by lia.
      destruct Hc as [->|[->|[->|[->|[->|[->| ->]]]]]]; vm_compute; reflexivity.
Qed.

(** X15: for a positive [depth], [q_reduced_growth_rate] reaches [q_reds] on the
    fit depths; every depth [e >= 1] reads the limit of iteration
    [e + CIDS - 1], and the depth 0, for which [depth_to_ind] has no key
    (a [KeyError], here [None]), is among the fit depths exactly when
    [depth < 8]. *)
Theorem q_reduced_growth_rate_keys (depth : Z) :
  1 <= depth ->
  exists l, q_reduced_growth_rate_iterations depth = Ok l /\
    map fst l = depths_for_fit depth /\
    (In (0, None) l <-> depth < 8) /\
    (forall e o, In (e, o) l ->
       (e = 0 /\ o = None) \/ (1 <= e /\ o = Some (e + CIDS - 1))).
Proof.
  intros Hd. unfold q_reduced_growth_rate_iterations, check_positive.
  replace (depth <? 1) with false by (symmetry; apply Z.ltb_ge; lia). cbn [bind].
  unfold q_reds_iterations.
  set (ds := depths_for_fit depth).
  rewrite (sorted_set_sorted_id ds) by apply sorted_set_sorted.
  assert (Hnn : forall e, In e ds -> 0 <= e).
  { intros e He. apply depths_for_fit_In in He.
    destruct He as [->|[->|[->|[->| ->]]]]; try lia; apply Z.div_pos; lia. }
  assert (Hlast : forall e, In e ds -> e <= last ds 0)
    by (intros e He; apply sorted_last_max; [apply sorted_set_sorted|exact He]).
  assert (Hdl : depth <= last ds 0)
    by (apply Hlast, depths_for_fit_In; right; right; right; right; reflexivity).
  unfold check_positive.
  replace (last ds 0 <? 1) with false by (symmetry; apply Z.ltb_ge; lia). cbn [bind].
  eexists. split; [reflexivity|].
  assert (Hval : forall e, In e ds -> 1 <= e ->
            nth_error (zrange CIDS (last ds 0 + CIDS)) (Z.to_nat (e - 1))
            = Some (e + CIDS - 1)).
  { intros e He H1. specialize (Hlast e He).
    rewrite zrange_nth by lia. f_equal. lia. }
  split; [|split].
  - rewrite map_map. cbn [fst]. apply map_id.
  - split.
    + intros H0. apply in_map_iff in H0. destruct H0 as [e [He Hin]].
      injection He as He0 Ho. subst e.
      apply depths_for_fit_In in Hin.
      destruct (Z.lt_ge_cases depth 8) as [|Hge]; [assumption|exfalso].
      assert (1 <= depth / 8) by (apply Z.div_le_lower_bound; lia).
      assert (depth / 8 <= depth / 4) by (apply Z.div_le_compat_l; lia).
      assert (depth / 4 <= depth / 2) by (apply Z.div_le_compat_l; lia).
      lia.
    + intros Hlt. apply in_map_iff. exists 0. split; [reflexivity|].
      apply depths_for_fit_In. right; left. symmetry. apply Z.div_small. lia.
  - intros e o Hin. apply in_map_iff in Hin. destruct Hin as [e' [He Hin]].
    injection He as <- <-.
    destruct (e' <? 1) eqn:E.
    + apply Z.ltb_lt in E. specialize (Hnn e' Hin). left. split; [lia|reflexivity].
    + apply Z.ltb_ge in E. right. split; [exact E|]. apply Hval; assumption.
Qed.

(** Witness for [q_reduced_growth_rate_keys]: depth 5, fit depths [0; 1; 2; 5; 6]. *)
Lemma q_reduced_growth_rate_keys_witness :
  1 <= 5 /\ exists l, q_reduced_growth_rate_iterations 5 = Ok l /\
    map fst l = depths_for_fit 5 /\
    (In (0, None) l <-> 5 < 8) /\
    (forall e o, In (e, o) l ->
       (e = 0 /\ o = None) \/ (1 <= e /\ o = Some (e + CIDS - 1))).
Proof.
  split; [lia|]. apply (q_reduced_growth_rate_keys 5). lia.
Defined.

(** The retry loops of [compute_dynamics] from a state with [success = False]
    and +infinity: each stops at the first try that succeeds. *)
Lemma cd_delta_loop_first (inner : Z -> result dval) (max_iters depth_shift : Z) :
  forall n fuel depth i,
  Z.to_nat (max_iters - i) = n -> (n < fuel)%nat ->
  cd_delta_loop inner max_iters depth_shift fuel depth i DInf false =
  Some (match first_finite (map inner (shifts_from depth depth_shift n)) with
        | Some (q, j) => (DVal q, i + Z.of_nat (S j))
        | None => (DInf, Z.max i max_iters)
        end).
Proof.
  induction n as [|n IH]; intros fuel depth i Hn Hf;
    (destruct fuel as [|fuel]; [lia|]); cbn [cd_delta_loop orb].
  - replace (i <? max_iters) with false by (symmetry; apply Z.ltb_ge; lia).
    cbn. repeat f_equal; lia.
  - replace (i <? max_iters) with true by (symmetry; apply Z.ltb_lt; lia).
    cbn [andb shifts_from map].
    assert (Hrest : cd_delta_loop inner max_iters depth_shift fuel
                      (depth + depth_shift) (i + 1) DInf false =
      Some (match first_finite (map inner (shifts_from (depth + depth_shift)
                                             depth_shift n)) with
            | Some (q, j) => (DVal q, i + Z.of_nat (S (S j)))
            | None => (DInf, Z.max i max_iters)
            end)).
    { rewrite (IH fuel) by lia.
      destruct (first_finite _) as [[q j]|]; f_equal; f_equal; lia. }
    destruct (inner depth) as [[|q|]|e]; cbn [first_finite];
      try (rewrite Hrest; destruct (first_finite _) as [[q j]|]; reflexivity).
    destruct fuel as [|fuel]; [lia|]. cbn. repeat f_equal; lia.
Qed.

Lemma cd_conv_loop_first (inner : Z -> result Q) (max_iters depth_shift : Z) :
  forall n fuel depth i c,
  Z.to_nat (max_iters - i) = n -> (n < fuel)%nat ->
  cd_conv_loop inner max_iters depth_shift fuel depth i c false =
  Some (match first_ok (map inner (shifts_from depth depth_shift n)) with
        | Some (c', j) => (c', i + Z.of_nat (S j))
        | None => (c, Z.max i max_iters)
        end).
Proof.
  induction n as [|n IH]; intros fuel depth i c Hn Hf;
    (destruct fuel as [|fuel]; [lia|]); cbn [cd_conv_loop negb].
  - replace (i <? max_iters) with false by (symmetry; apply Z.ltb_ge; lia).
    cbn. repeat f_equal; lia.
  - replace (i <? max_iters) with true by (symmetry; apply Z.ltb_lt; lia).
    cbn [andb shifts_from map].
    destruct (inner depth) as [c'|e]; cbn [first_ok].
    + destruct fuel as [|fuel]; [lia|]. cbn. repeat f_equal; lia.
    + rewrite (IH fuel) by lia.
      destruct (first_ok _) as [[c' j]|]; cbn; f_equal; f_equal; lia.
Qed.

(** X16: given enough fuel, [compute_dynamics] returns the first finite delta
    among the depths [depth, depth + depth_shift, ...] (at most [max_iters]
    tries; exceptions and [None] count as failures) with the number of tries
    used, or +infinity after [max(0, max_iters)] tries; independently, the
    first convergence rate that does not raise, or 0, with its try count. *)
Theorem compute_dynamics_first_success (delta_inner : Z -> result dval)
    (conv_inner : Z -> result Q) (depth max_iters depth_shift : Z) (fuel : nat) :
  (Z.to_nat max_iters < fuel)%nat ->
  compute_dynamics delta_inner conv_inner depth max_iters depth_shift fuel =
  Some ((match first_finite (map delta_inner
                               (shifts_from depth depth_shift (Z.to_nat max_iters))) with
         | Some (q, j) => (DVal q, Z.of_nat (S j))
         | None => (DInf, Z.max 0 max_iters)
         end),
        (match first_ok (map conv_inner
                           (shifts_from depth depth_shift (Z.to_nat max_iters))) with
         | Some (c, j) => (c, Z.of_nat (S j))
         | None => (0%Q, Z.max 0 max_iters)
         end)).
Proof.
  intros Hf. unfold compute_dynamics.
  rewrite (cd_delta_loop_first delta_inner max_iters depth_shift (Z.to_nat max_iters))
    by first [rewrite Z.sub_0_r; reflexivity | exact Hf].
  rewrite (cd_conv_loop_first conv_inner max_iters depth_shift (Z.to_nat max_iters))
    by first [rewrite Z.sub_0_r; reflexivity | exact Hf].
  reflexivity.
Qed.

(** Witness for [compute_dynamics_first_success]. *)
Lemma compute_dynamics_first_success_witness :
  (Z.to_nat 5 < 6)%nat /\
  compute_dynamics cd_delta_ex (fun _ => Ok 3%Q) 2000 5 100 6 =
  Some ((match first_finite (map cd_delta_ex (shifts_from 2000 100 (Z.to_nat 5))) with
         | Some (q, j) => (DVal q, Z.of_nat (S j))
         | None => (DInf, Z.max 0 5)
         end),
        (match first_ok (map (fun _ => Ok 3%Q) (shifts_from 2000 100 (Z.to_nat 5))) with
         | Some (c, j) => (c, Z.of_nat (S j))
         | None => (0%Q, Z.max 0 5)
         end)).
Proof.
  split; [cbn; lia|].
  apply (compute_dynamics_first_success cd_delta_ex (fun _ => Ok 3%Q) 2000 5 100 6).
  cbn; lia.
Defined.
